(** * Synchronisation core of the multi-process garbage collector

    A shallow embedding of

    - [ruts/cas_loop.h]: the compare-and-swap retry primitive,
    - [ruts/lock_free_stack.h]: the lock-free intrusive stack,
    - [mpgc/gc_handshake.h]: thread records and the handshake walk,

    followed by the properties proved about them.

    Concurrency is modelled by interleaving: the code under study runs
    as written, and the other threads are an _interference_ function that
    may rewrite shared memory at the points where the code touches it.
    What the code itself does is additionally recorded in a trace, so that
    "no compare-and-swap was attempted" or "no signal was sent" are
    statements about the trace, separate from whatever the other threads
    do to memory. *)

From stdpp Require Import base numbers option list gmap.

Local Open Scope Z_scope.

(** The interference of a system in which nobody else runs. *)
Definition quiet {A : Type} : nat → A → A := λ _ a, a.

(** ** ruts/cas_loop.h *)
Module cas_loop.

(** What an operation did to the atomic word and to its closures, most
    recent event first. *)
Inductive event (T : Type) : Type :=
| EvLoad (observed : T)
| EvContinue (arg : T) (result : bool)
| EvUpdate (arg result : T)
| EvCas (expected desired : T) (ok : bool).
Arguments EvLoad {T}.
Arguments EvContinue {T}.
Arguments EvUpdate {T}.
Arguments EvCas {T}.

Definition is_cas {T} (e : event T) : bool :=
  match e with EvCas _ _ _ => true | _ => false end.
Definition is_update {T} (e : event T) : bool :=
  match e with EvUpdate _ _ => true | _ => false end.

(** Number of compare-and-swap attempts, of [update_fn] invocations, and
    the values the operation itself stored into the word. *)
Definition cas_attempts {T} (tr : list (event T)) : nat :=
  length (List.filter is_cas tr).
Definition update_calls {T} (tr : list (event T)) : nat :=
  length (List.filter is_update tr).
Fixpoint stores {T} (tr : list (event T)) : list T :=
  match tr with
  | [] => []
  | EvCas _ desired true :: tr => desired :: stores tr
  | _ :: tr => stores tr
  end.

(** [struct cas_loop_return_value<T>] *)
Record cas_loop_return_value (T : Type) : Type := CLRV {
  succeeded : bool;
  prior_value : T;
  new_value : T
}.
Arguments CLRV {T}.
Arguments succeeded {T}.
Arguments prior_value {T}.
Arguments new_value {T}.

Definition resulting_value {T} (r : cas_loop_return_value T) : T :=
  if succeeded r then new_value r else prior_value r.

(** The memory an operation works on: the [std::atomic<T>] word, the
    number of atomic accesses made to it so far, the state the
    [Continue] and [Update] closures capture by reference, and the
    trace. *)
Record world (T S : Type) : Type := World {
  atom : T;
  clock : nat;
  closure : S;
  trace : list (event T)
}.
Arguments World {T S}.
Arguments atom {T S}.
Arguments clock {T S}.
Arguments closure {T S}.
Arguments trace {T S}.

(** A callable taking the current value.  The source hands its callables
    on by value, and every callable in these headers keeps what it reads
    and writes behind references: [S] is that captured state, shared by
    all copies. *)
Definition fn (T S X : Type) : Type := T → S → X * S.

Definition pure_fn {T S X} (f : T → X) : fn T S X := λ v s, (f v, s).

Section primitive.
Context {T : Type} `{EqDecision T} {S : Type}.

(** [env n v]: what the other threads have made of the word, holding
    [v], by the time of the [n]-th atomic access. *)
Variable env : nat → T → T.

(** The value a default-constructed [T] member happens to hold. *)
Variable indeterminate : T.

Definition observe (w : world T S) : T := env (clock w) (atom w).

Definition log (e : event T) (s : S) (w : world T S) : world T S :=
  World (atom w) (clock w) s (e :: trace w).

(** [prior_value = a] *)
Definition load (w : world T S) : T * world T S :=
  let v := observe w in
  (v, World v (Datatypes.S (clock w)) (closure w) (EvLoad v :: trace w)).

(** [a.compare_exchange_strong(expected, desired)]: the second
    component is [expected] after the call. *)
Definition compare_exchange_strong (expected desired : T) (w : world T S)
  : bool * T * world T S :=
  let v := observe w in
  if decide (v = expected)
  then (true, expected,
        World desired (Datatypes.S (clock w)) (closure w)
              (EvCas expected desired true :: trace w))
  else (false, v,
        World v (Datatypes.S (clock w)) (closure w)
              (EvCas expected desired false :: trace w)).

Definition default_clrv : cas_loop_return_value T :=
  CLRV false indeterminate indeterminate.

(** [_update]: [new_value = update_fn(prior_value)] *)
Definition _update (update_fn : fn T S T)
    (r : cas_loop_return_value T) (w : world T S)
  : T * cas_loop_return_value T * world T S :=
  let '(nv, s) := update_fn (prior_value r) (closure w) in
  (nv, CLRV (succeeded r) (prior_value r) nv,
   log (EvUpdate (prior_value r) nv) s w).

(** [try_once]: the result says whether the loop is over. *)
Definition try_once (continue_fn : fn T S bool) (update_fn : fn T S T)
    (r : cas_loop_return_value T) (w : world T S)
  : bool * cas_loop_return_value T * world T S :=
  let '(c, s) := continue_fn (prior_value r) (closure w) in
  let r1 := CLRV c (prior_value r) (new_value r) in
  let w1 := log (EvContinue (prior_value r) c) s w in
  if negb c then (true, r1, w1)
  else
    let '(nv, r2, w2) := _update update_fn r1 w1 in
    let '(ok, seen, w3) := compare_exchange_strong (prior_value r2) nv w2 in
    (ok, CLRV ok seen (new_value r2), w3).

Definition first_try (continue_fn : fn T S bool) (update_fn : fn T S T)
    (r : cas_loop_return_value T) (w : world T S)
  : bool * cas_loop_return_value T * world T S :=
  let '(v, w1) := load w in
  try_once continue_fn update_fn (CLRV (succeeded r) v (new_value r)) w1.

(** [try_more]: [while (!try_once(...)) {}].  The loop has no bound in
    the source; [fuel] bounds the number of iterations here and [None]
    means the bound was hit. *)
Fixpoint try_more (fuel : nat) (continue_fn : fn T S bool)
    (update_fn : fn T S T) (r : cas_loop_return_value T) (w : world T S)
  : option (cas_loop_return_value T * world T S) :=
  let '(done, r', w') := try_once continue_fn update_fn r w in
  if done then Some (r', w')
  else match fuel with
       | O => None
       | Datatypes.S fuel => try_more fuel continue_fn update_fn r' w'
       end.

Definition loop (fuel : nat) (continue_fn : fn T S bool)
    (update_fn : fn T S T) (r : cas_loop_return_value T) (w : world T S)
  : option (cas_loop_return_value T * world T S) :=
  let '(done, r', w') := first_try continue_fn update_fn r w in
  if done then Some (r', w')
  else try_more fuel continue_fn update_fn r' w'.

Definition once (continue_fn : fn T S bool) (update_fn : fn T S T)
    (r : cas_loop_return_value T) (w : world T S)
  : cas_loop_return_value T * world T S :=
  let '(_, r', w') := first_try continue_fn update_fn r w in (r', w').

Definition change (from to : T)
    (r : cas_loop_return_value T) (w : world T S)
  : cas_loop_return_value T * world T S :=
  let '(ok, seen, w') := compare_exchange_strong from to w in
  (CLRV ok seen to, w').

Definition try_cas (continue_fn : fn T S bool) (update_fn : fn T S T)
    (w : world T S) : cas_loop_return_value T * world T S :=
  once continue_fn update_fn default_clrv w.

Definition try_change_value (from to : T) (w : world T S)
  : cas_loop_return_value T * world T S :=
  change from to default_clrv w.

Definition try_cas_loop (fuel : nat) (continue_fn : fn T S bool)
    (update_fn : fn T S T) (w : world T S)
  : option (cas_loop_return_value T * world T S) :=
  loop fuel continue_fn update_fn default_clrv w.

Definition cas_loop (fuel : nat) (update_fn : fn T S T) (w : world T S)
  : option (cas_loop_return_value T * world T S) :=
  try_cas_loop fuel (pure_fn (λ _, true)) update_fn w.
End primitive.

(** What a finished loop leaves behind.  While the loop runs, the word
    as last seen is [prior_value]; at the end either the last attempt
    stored [new_value], computed from that [prior_value], or
    [continue_fn] refused [prior_value] and the operation stored
    nothing. *)
Definition settled {T S} (continue_fn : fn T S bool) (update_fn : fn T S T)
    (w : world T S) (r' : cas_loop_return_value T) (w' : world T S) : Prop :=
  if succeeded r'
  then (∃ s, (continue_fn (prior_value r') s).1 = true ∧
             new_value r' =
               (update_fn (prior_value r')
                  (continue_fn (prior_value r') s).2).1) ∧
       atom w' = new_value r' ∧
       stores (trace w') = new_value r' :: stores (trace w)
  else (∃ s, (continue_fn (prior_value r') s).1 = false) ∧
       atom w' = prior_value r' ∧
       stores (trace w') = stores (trace w).

(** The closures of the bounded form capture the local [max_tries] by
    reference next to whatever the caller's closures capture. *)
Section bounded.
Context {T : Type} `{EqDecision T} {S : Type}.
Variable env : nat → T → T.
Variable indeterminate : T.

(** [[&](const T &curr) { return max_tries-- > 0 && continue_fn(curr); }]
    ([long] arithmetic; the counter is decremented whether or not
    [continue_fn] is reached). *)
Definition max_tries_continue (continue_fn : fn T S bool)
  : fn T (Z * S) bool :=
  λ curr c,
    let '(max_tries, s) := c in
    if decide (0 < max_tries)
    then let '(b, s') := continue_fn curr s in (b, (max_tries - 1, s'))
    else (false, (max_tries - 1, s)).

Definition with_max_tries {X} (f : fn T S X) : fn T (Z * S) X :=
  λ v c, let '(x, s') := f v (snd c) in (x, (fst c, s')).

Definition enter (max_tries : Z) (w : world T S) : world T (Z * S) :=
  World (atom w) (clock w) (max_tries, closure w) (trace w).
Definition leave (w : world T (Z * S)) : world T S :=
  World (atom w) (clock w) (snd (closure w)) (trace w).

(** [try_cas_loop(a, max_tries, continue_fn, update_fn)] *)
Definition try_cas_loop_max (fuel : nat) (max_tries : Z)
    (continue_fn : fn T S bool) (update_fn : fn T S T) (w : world T S)
  : option (cas_loop_return_value T * world T S) :=
  match try_cas_loop env indeterminate fuel
          (max_tries_continue continue_fn) (with_max_tries update_fn)
          (enter max_tries w) with
  | Some (r, w') => Some (r, leave w')
  | None => None
  end.

(** [try_cas_loop(a, max_tries, update_fn)] *)
Definition try_cas_loop_max_always (fuel : nat) (max_tries : Z)
    (update_fn : fn T S T) (w : world T S)
  : option (cas_loop_return_value T * world T S) :=
  try_cas_loop_max fuel max_tries (pure_fn (λ _, true)) update_fn w.
End bounded.

(** [increment_to_at_least(a, to)], for an integral [T]. *)
Definition increment_to_at_least {S} (env : nat → Z → Z) (indeterminate : Z)
    (fuel : nat) (to : Z) (w : world Z S)
  : option (cas_loop_return_value Z * world Z S) :=
  try_cas_loop env indeterminate fuel
    (pure_fn (λ old, bool_decide (old < to)))
    (pure_fn (λ old, to)) w.

End cas_loop.

(** ** ruts/lock_free_stack.h *)
Module lf_stack.
Import cas_loop.

(** Entries live at addresses; a [pointer<entry>] is an address or
    [nullptr].  The address of an entry and the address of its [value]
    member differ by [offsetof(entry, value)] only, so one address stands
    for both. *)
Definition addr : Type := positive.
Definition pointer : Type := option addr.
Definition nullptr : pointer := None.

(** Modelled from the spec: ruts/versioned_ptr.h is not among the
    sources.  A versioned pointer is a pointer and a version counter in
    one atomically updated word; the spec has every successful update
    strictly increment the version, so the counter is a natural number
    and [inc_and_set] adds one to it. *)
Record versioned : Type := Versioned { ptr : pointer; version : N }.

#[global] Instance versioned_eq_dec : EqDecision versioned.
Proof. solve_decision. Defined.

(** Modelled from the spec: [h.inc_and_set(p)] of the missing header,
    the pointer replaced and the version one higher. *)
Definition inc_and_set (h : versioned) (p : pointer) : versioned :=
  Versioned p (version h + 1)%N.

(** [struct entry] *)
Record entry (V : Type) : Type := Entry { value : V; next : pointer }.
Arguments Entry {V}.
Arguments value {V}.
Arguments next {V}.

(** The entries in memory. *)
Abbreviation heap V := (gmap addr (entry V)).

Section stack.
Context {V : Type}.

(** The stack: [_head] is the atomic word, the entries are the memory
    its closures reach. *)
Definition stack : Type := world versioned (heap V).
Definition _head (s : stack) : versioned := atom s.
Definition entries (s : stack) : heap V := closure s.

Variable env : nat → versioned → versioned.
Variable indeterminate : versioned.

(** What [temp = n] makes of a [versioned] variable assigned a plain
    pointer; declared in the missing header and left open here. *)
Variable assign : versioned → pointer → versioned.

(** Modelled from the spec: the members of
    [versioned<...>::atomic_pointer] that the stack calls.  They drive
    the head word through the retry primitive: [update] with an
    always-true continuation, [try_update] with the given one,
    [inc_and_change] as a single-shot change that bumps the version,
    and [contents] as an atomic load. *)
Definition update {S} (fuel : nat) (f : fn versioned S versioned)
    (w : world versioned S) :=
  cas_loop env indeterminate fuel f w.
Definition try_update {S} (fuel : nat) (c : fn versioned S bool)
    (f : fn versioned S versioned) (w : world versioned S) :=
  try_cas_loop env indeterminate fuel c f w.
Definition inc_and_change {S} (from : versioned) (to : pointer)
    (w : world versioned S) :=
  try_change_value env indeterminate from (inc_and_set from to) w.
Definition contents {S} (w : world versioned S) := load env w.

(** [lf_stack()] *)
Definition empty_stack : stack := World (Versioned nullptr 0%N) O ∅ [].

(** [p->next], reading through a null or dangling pointer gives
    [nullptr] (undefined in the source). *)
Definition next_of (m : heap V) (p : pointer) : pointer :=
  e ← p ≫= (m !!.); next e.
Definition value_of (m : heap V) (p : pointer) : option V :=
  e ← p ≫= (m !!.); Some (value e).

(** [e->next = q], nothing happens through a dangling pointer. *)
Definition set_next (e : addr) (q : pointer) (m : heap V) : heap V :=
  alter (λ x, Entry (value x) q) e m.

(** [head()], [next(p)] (as [next_], the entry's member has the name)
    and [empty()]. *)
Definition head (s : stack) : pointer := ptr (observe env s).
Definition next_ (s : stack) (p : addr) : pointer :=
  next_of (entries s) (Some p).
Definition empty (s : stack) : bool :=
  bool_decide (ptr (observe env s) = nullptr).

(** [allocate(args...)]: the allocator hands out [a]; the entry is
    constructed there with a null [next]. *)
Definition allocate (a : addr) (v : V) (s : stack) : pointer * stack :=
  (Some a,
   World (atom s) (clock s) (<[a := Entry v nullptr]> (entries s)) (trace s)).

(** [deallocate(e)] *)
Definition deallocate (a : addr) (s : stack) : stack :=
  World (atom s) (clock s) (delete a (entries s)) (trace s).

(** The closure of [push(p)]. *)
Definition push_update (e : addr) : fn versioned (heap V) versioned :=
  λ h m, (inc_and_set h (Some e), set_next e (ptr h) m).

Definition push (fuel : nat) (p : addr) (s : stack) : option stack :=
  snd <$> update fuel (push_update p) s.

(** The closure of [push(begin, end)]. *)
Definition push_range_update (b e : addr) : fn versioned (heap V) versioned :=
  λ h m, (inc_and_set h (Some b), set_next e (ptr h) m).

Definition push_range (fuel : nat) (b e : addr) (s : stack)
  : option stack :=
  snd <$> update fuel (push_range_update b e) s.

(** The closures of [pop(ret)] capture the caller's [ret] too. *)
Definition pop_continue : fn versioned ((heap V) * pointer) bool :=
  λ h c, if decide (ptr h = nullptr) then (false, (fst c, nullptr))
         else (true, c).
Definition pop_update : fn versioned ((heap V) * pointer) versioned :=
  λ h c, (inc_and_set h (next_of (fst c) (ptr h)), (fst c, ptr h)).

Definition pop (fuel : nat) (ret : pointer) (s : stack)
  : option (pointer * stack) :=
  match try_update fuel pop_continue pop_update
          (World (atom s) (clock s) (entries s, ret) (trace s)) with
  | Some (_, w) =>
      Some (snd (closure w),
            World (atom w) (clock w) (fst (closure w)) (trace w))
  | None => None
  end.

(** [clear()]: the body of the [while] loop, on the local [temp]. *)
Fixpoint clear_loop (fuel : nat) (temp : versioned) (s : stack)
  : option stack :=
  match ptr temp with
  | None => Some s
  | Some t =>
      match fuel with
      | O => None
      | Datatypes.S fuel =>
          let '(ret, s1) :=
            inc_and_change temp (next_of (entries s) (ptr temp)) s in
          if succeeded ret then
            let n := next_of (entries s1) (ptr temp) in
            clear_loop fuel (assign temp n) (deallocate t s1)
          else clear_loop fuel (prior_value ret) s1
      end
  end.

Definition clear (fuel : nat) (s : stack) : option stack :=
  let '(temp, s1) := contents s in clear_loop fuel temp s1.

(** A history of calls on one stack, run one after the other. *)
Inductive op : Type :=
| Allocate (a : addr) (v : V)
| Deallocate (a : addr)
| Push (p : addr)
| PushRange (b e : addr)
| Pop
| Clear.

Definition run_op (fuel : nat) (o : op) (s : stack) : option stack :=
  match o with
  | Allocate a v => Some (allocate a v s).2
  | Deallocate a => Some (deallocate a s)
  | Push p => push fuel p s
  | PushRange b e => push_range fuel b e s
  | Pop => snd <$> pop fuel nullptr s
  | Clear => clear fuel s
  end.

Fixpoint run (fuel : nat) (ops : list op) (s : stack) : option stack :=
  match ops with
  | [] => Some s
  | o :: ops => s' ← run_op fuel o s; run fuel ops s'
  end.

(** Number of successful updates of the head word so far. *)
Definition updates {S} (w : world versioned S) : nat :=
  length (stores (trace w)).

(** Between [w] and [w'] the operations under study updated the head
    word [k] times and its version went up by [k]. *)
Definition advanced {S S'} (k : nat) (w : world versioned S)
    (w' : world versioned S') : Prop :=
  updates w' = (updates w + k)%nat ∧
  version (atom w') = (version (atom w) + N.of_nat k)%N.

(** Every compare-and-swap in the trace proposed the version after the
    one it expected. *)
Definition bumps (tr : list (event versioned)) : Prop :=
  ∀ e d ok, EvCas e d ok ∈ tr → version d = (version e + 1)%N.
End stack.

Arguments stack : clear implicits.
Arguments op : clear implicits.
End lf_stack.

(** ** mpgc/gc_handshake.h *)
Module gc_handshake.

(** [enum class Signum : char] *)
Inductive Signum : Type :=
| sigSync1 | sigSync2 | sigAsync | sigDeferredAsync
| sigSweep | sigDeferredSweep | sigInit.

(** [static_cast<char>(sig)] *)
Definition Signum_to_char (s : Signum) : Z :=
  match s with
  | sigSync1 => 0 | sigSync2 => 1 | sigAsync => 2 | sigDeferredAsync => 3
  | sigSweep => 4 | sigDeferredSweep => 5 | sigInit => 6
  end.

(** [enum class Weak_signal : char] *)
Inductive Weak_signal : Type := InBarrier | DoHandshake | Working.

(** [enum class Alive : unsigned char] *)
Inductive Alive : Type := Dead | Live.

#[global] Instance Signum_eq_dec : EqDecision Signum.
Proof. solve_decision. Defined.
#[global] Instance Weak_signal_eq_dec : EqDecision Weak_signal.
Proof. solve_decision. Defined.
#[global] Instance Alive_eq_dec : EqDecision Alive.
Proof. solve_decision. Defined.

Section handshake.
(** [gc_status] comes from mpgc/gc_thread.h, which is not among the
    sources; the header uses its constructor from a [Signum] and its
    [status()] accessor, and nothing more is assumed of it. *)
Context {gc_status : Type}.
Variable make_gc_status : Signum → gc_status.
Variable status : gc_status → Signum.

(** [struct in_memory_thread_struct].  The weak-pointer set, the local
    free list and the random engine play no part in the handshake and
    are left out; pointers are addresses. *)
Record in_memory_thread_struct : Type := Thread {
  pthread : Z;
  stack_end : Z;
  persist_data : Z;
  bitmap : Z;
  status_idx : gc_status;
  weak_signal : Weak_signal;
  live : Alive;
  mark_signal_disabled : bool;
  mark_signal_requested : Signum;
  sweep_signal_disabled : bool;
  sweep_signal_requested : bool;
  clear_local_allocator : bool
}.

(** [in_memory_thread_struct()], given what [pthread_self()],
    [compute_stack_addr], the persist list and [mbitmap] supply. *)
Definition new_thread_struct (self stack persist mbitmap : Z)
  : in_memory_thread_struct :=
  {| pthread := self;
     stack_end := stack;
     persist_data := persist;
     bitmap := mbitmap;
     status_idx := make_gc_status sigInit;
     weak_signal := Working;
     live := Live;
     mark_signal_disabled := false;
     mark_signal_requested := sigInit;
     sweep_signal_disabled := false;
     sweep_signal_requested := false;
     clear_local_allocator := false |}.

(** A store to one of the [volatile] members written in this header. *)
Inductive store : Type :=
| StMarkSignalDisabled (b : bool)
| StSweepSignalDisabled (b : bool)
| StLive (a : Alive).

Definition do_store (st : store) (r : in_memory_thread_struct)
  : in_memory_thread_struct :=
  match st with
  | StMarkSignalDisabled b =>
      Thread (pthread r) (stack_end r) (persist_data r) (bitmap r)
        (status_idx r) (weak_signal r) (live r) b
        (mark_signal_requested r) (sweep_signal_disabled r)
        (sweep_signal_requested r) (clear_local_allocator r)
  | StSweepSignalDisabled b =>
      Thread (pthread r) (stack_end r) (persist_data r) (bitmap r)
        (status_idx r) (weak_signal r) (live r) (mark_signal_disabled r)
        (mark_signal_requested r) b
        (sweep_signal_requested r) (clear_local_allocator r)
  | StLive a =>
      Thread (pthread r) (stack_end r) (persist_data r) (bitmap r)
        (status_idx r) (weak_signal r) a (mark_signal_disabled r)
        (mark_signal_requested r) (sweep_signal_disabled r)
        (sweep_signal_requested r) (clear_local_allocator r)
  end.

(** [mark_dead()]: its three statements, in program order.  Each is a
    volatile store, so another thread can see the record after any
    prefix of them. *)
Definition mark_dead_body : list store :=
  [StMarkSignalDisabled true; StSweepSignalDisabled true; StLive Dead].

Definition run_stores (sts : list store) (r : in_memory_thread_struct)
  : in_memory_thread_struct :=
  foldl (λ r st, do_store st r) r sts.

Definition mark_dead (r : in_memory_thread_struct)
  : in_memory_thread_struct :=
  run_stores mark_dead_body r.

Definition marked_dead (r : in_memory_thread_struct) : bool :=
  bool_decide (live r = Dead).

Definition is_marked (r : in_memory_thread_struct) : bool :=
  bool_decide (live r = Dead).

(** [h->weak_signal.compare_exchange_strong(expected, desired)] *)
Definition weak_signal_cas (expected desired : Weak_signal)
    (r : in_memory_thread_struct) : bool * in_memory_thread_struct :=
  if decide (weak_signal r = expected)
  then (true,
        Thread (pthread r) (stack_end r) (persist_data r) (bitmap r)
          (status_idx r) desired (live r) (mark_signal_disabled r)
          (mark_signal_requested r) (sweep_signal_disabled r)
          (sweep_signal_requested r) (clear_local_allocator r))
  else (false, r).

(** The life of one record, as far as this header writes to it.  The
    owner runs [mark_dead] from the destructor of its
    [thread_struct_handle]; [pc] is [Some n] while a call is in
    progress with [n] of its stores done.  A collector may at any time
    run the compare-and-swap of [post_handshake] on a record it found
    not marked dead. *)
Record tracked : Type := Tracked {
  rec : in_memory_thread_struct;
  pc : option nat
}.

Inductive step : tracked → tracked → Prop :=
| step_call r :
    step (Tracked r None) (Tracked r (Some O))
| step_store r n st :
    mark_dead_body !! n = Some st →
    step (Tracked r (Some n)) (Tracked (do_store st r) (Some (S n)))
| step_return r :
    step (Tracked r (Some (length mark_dead_body))) (Tracked r None)
| step_weak_cas r p :
    step (Tracked r p)
         (Tracked (weak_signal_cas InBarrier DoHandshake r).2 p).

(** What holds at every point of that life: a record that reads dead has
    both signals disabled, and a call of [mark_dead] in progress has set
    the flags its finished stores set. *)
Definition flags_in_step (t : tracked) : Prop :=
  (live (rec t) = Dead →
   mark_signal_disabled (rec t) = true ∧
   sweep_signal_disabled (rec t) = true) ∧
  match pc t with
  | Some n =>
      (n ≤ length mark_dead_body)%nat ∧
      ((1 ≤ n)%nat → mark_signal_disabled (rec t) = true) ∧
      ((2 ≤ n)%nat → sweep_signal_disabled (rec t) = true)
  | None => True
  end.

Definition reachable (t : tracked) : Prop :=
  ∃ self stack persist mbitmap,
    rtc step (Tracked (new_thread_struct self stack persist mbitmap) None) t.

(** Shared memory: the registry [thread_struct_list] and the termination
    flag (a [uint8_t]). *)
Record memory : Type := Memory {
  thread_struct_list : list in_memory_thread_struct;
  request_gc_termination : Z
}.

(** Modelled from the spec: ruts/collections.h, with
    [sequential_lazy_delete_collection] and its [head()] and [next()], is
    not among the sources.  The registry is a sequence that [head()] and
    [next()] walk in full, dead records included; a pointer to a record
    is its position in the sequence, and the null pointer is a position
    past its end. *)
Definition head (m : memory) : nat := 0%nat.
Definition next (m : memory) (h : nat) : nat := S h.
Definition deref (m : memory) (h : nat) : option in_memory_thread_struct :=
  thread_struct_list m !! h.

(** What the collector itself did, most recent event first. *)
Inductive event : Type :=
| EvWeakCas (h : nat) (ok : bool)
| EvSigqueue (thread : Z) (sival_int : Z)
| EvRelax (h : nat)
| EvPoll (flag : Z).

Record world : Type := World {
  mem : memory;
  now : nat;
  trace : list event
}.

(** [env t m]: what the mutator threads, the signal handlers and any
    external controller have made of memory [m] during the [t]-th
    interval in which the collector lets them run. *)
Variable env : nat → memory → memory.

Definition log (e : event) (w : world) : world :=
  World (mem w) (now w) (e :: trace w).

Definition interfere (w : world) : world :=
  World (env (now w) (mem w)) (S (now w)) (trace w).

Definition write_record (h : nat) (r : in_memory_thread_struct)
    (w : world) : world :=
  World (Memory (<[h := r]> (thread_struct_list (mem w)))
                (request_gc_termination (mem w)))
        (now w) (trace w).

(** How a call came back. *)
Inductive exit : Type := Finished | Aborted.

(** The body of the [if (!h->marked_dead())] in [post_handshake]. *)
Definition post_record (sig : Signum) (doWeakCheck : bool) (h : nat)
    (r : in_memory_thread_struct) (w : world) : world :=
  let w1 :=
    if doWeakCheck then
      let '(ok, r') := weak_signal_cas InBarrier DoHandshake r in
      log (EvWeakCas h ok) (write_record h r' w)
    else w in
  log (EvSigqueue (pthread r) (Signum_to_char sig)) w1.

(** [post_handshake]: the [while (h)] loop.  The other threads run
    between two records.  The fence orders nothing in an interleaving
    model. *)
Fixpoint post_walk (fuel : nat) (sig : Signum) (doWeakCheck : bool)
    (h : nat) (w : world) : option world :=
  match deref (mem w) h with
  | None => Some w
  | Some r =>
      match fuel with
      | O => None
      | S fuel =>
          let w1 := if marked_dead r then w
                    else post_record sig doWeakCheck h r w in
          post_walk fuel sig doWeakCheck (next (mem w1) h) (interfere w1)
      end
  end.

Definition post_handshake (fuel : nat) (sig : Signum) (doWeakCheck : bool)
    (w : world) : option world :=
  post_walk fuel sig doWeakCheck (head (mem w)) w.

(** The condition of the busy loop in [wait_handshake], read off one
    snapshot of the record. *)
Definition keep_waiting (sig : Signum) (doWeakCheck : bool)
    (r : in_memory_thread_struct) : bool :=
  negb (marked_dead r) &&
  (negb (bool_decide (status (status_idx r) = sig)) ||
   (doWeakCheck && bool_decide (weak_signal r = DoHandshake))).

(** [wait_handshake]: both loops.  One unit of fuel pays for one
    evaluation of the busy loop's condition; the other threads run
    during [cpu_relax()]. *)
Fixpoint wait_walk (fuel : nat) (sig : Signum) (doWeakCheck : bool)
    (h : nat) (w : world) : option (exit * world) :=
  match deref (mem w) h with
  | None => Some (Finished, w)
  | Some r =>
      match fuel with
      | O => None
      | S fuel =>
          if keep_waiting sig doWeakCheck r then
            let w1 := log (EvRelax h) (interfere w) in
            let flag := request_gc_termination (mem w1) in
            let w2 := log (EvPoll flag) w1 in
            if decide (flag ≠ 0) then Some (Aborted, w2)
            else wait_walk fuel sig doWeakCheck h w2
          else wait_walk fuel sig doWeakCheck (next (mem w) h) w
      end
  end.

(** A record the busy loop does not wait for. *)
Definition satisfied (sig : Signum) (doWeakCheck : bool)
    (r : in_memory_thread_struct) : Prop :=
  live r = Dead ∨
  (status (status_idx r) = sig ∧
   (doWeakCheck = false ∨ weak_signal r ≠ DoHandshake)).

(** Every poll in the trace read the termination flag as clear. *)
Definition saw_no_termination (tr : list event) : Prop :=
  ∀ flag, EvPoll flag ∈ tr → flag = 0.

Definition wait_handshake (fuel : nat) (sig : Signum) (doWeakCheck : bool)
    (w : world) : option (exit * world) :=
  wait_walk fuel sig doWeakCheck (head (mem w)) w.

Definition handshake (fuel : nat) (sig : Signum) (doWeakCheck : bool)
    (w : world) : option (exit * world) :=
  w1 ← post_handshake fuel sig doWeakCheck w;
  wait_handshake fuel sig doWeakCheck w1.
End handshake.

Arguments in_memory_thread_struct : clear implicits.
Arguments memory : clear implicits.
Arguments world : clear implicits.
Arguments tracked : clear implicits.
End gc_handshake.

(** ** Concrete instances used in the examples below *)
Module example.
Import gc_handshake.

(** A live thread that has reached [sigSync1], parked in a barrier and
    told to do the handshake itself; [gc_status] is just the status. *)
Definition parked : in_memory_thread_struct Signum :=
  Thread 1 4096 0 0 sigSync1 DoHandshake Live false sigInit false false false.

(** A live thread still at [sigInit]. *)
Definition busy : in_memory_thread_struct Signum :=
  Thread 2 8192 0 0 sigInit Working Live false sigInit false false false.

Definition one_parked : world Signum := World (Memory [parked] 0) 0 [].

(** A live thread still at [sigInit] and parked in a barrier when the
    handshake starts; and signal handlers that bring every status to
    [sigSync1] as soon as they get to run, while the threads stay
    parked. *)
Definition in_barrier : in_memory_thread_struct Signum :=
  Thread 3 12288 0 0 sigInit InBarrier Live false sigInit false false false.

Definition one_in_barrier : world Signum :=
  World (Memory [in_barrier] 0) 0 [].

Definition acknowledge (r : in_memory_thread_struct Signum)
  : in_memory_thread_struct Signum :=
  Thread (pthread r) (stack_end r) (persist_data r) (bitmap r)
    sigSync1 (weak_signal r) (live r) (mark_signal_disabled r)
    (mark_signal_requested r) (sweep_signal_disabled r)
    (sweep_signal_requested r) (clear_local_allocator r).

Definition handlers : nat → memory Signum → memory Signum :=
  λ _ m, Memory (acknowledge <$> thread_struct_list m)
                (request_gc_termination m).

(** Two busy threads and the termination flag raised. *)
Definition terminating : world Signum := World (Memory [busy; busy] 1) 0 [].

Definition no_threads : world Signum := World (Memory [] 0) 0 [].

(** Two busy threads with the flag clear, and an external controller
    that raises the termination flag at time 2 and leaves it raised. *)
Definition two_busy : world Signum := World (Memory [busy; busy] 0) 0 [].
Definition raise_at_2 : nat → memory Signum → memory Signum :=
  λ t m, if decide (2 ≤ t)%nat then Memory (thread_struct_list m) 1 else m.

(** An atomic counter holding 5, and other threads that add one to it
    before each access. *)
Definition counter : cas_loop.world Z () := cas_loop.World 5 0 () [].
Definition racing : nat → Z → Z := λ _ v, v + 1.

(** An entry [A] pushed on an empty stack; then [A] is popped, freed,
    allocated again and pushed again. *)
Definition A : lf_stack.addr := 7%positive.
Definition stale : lf_stack.versioned := lf_stack.Versioned None 0.
Definition plain (h : lf_stack.versioned) (p : lf_stack.pointer)
  : lf_stack.versioned := lf_stack.Versioned p 0.
Definition pushed_A : lf_stack.stack Z :=
  default lf_stack.empty_stack
    (lf_stack.run quiet stale plain 0
       [lf_stack.Allocate A 1; lf_stack.Push A] lf_stack.empty_stack).
Definition reuse_A : list (lf_stack.op Z) :=
  [lf_stack.Pop; lf_stack.Deallocate A; lf_stack.Allocate A 2;
   lf_stack.Push A].
End example.

(** * Further code of the same headers *)

(** How a call that may step outside what is defined came back: it
    returned, it was still looping when the fuel ran out, or it did
    something the source leaves undefined (a read or write outside a
    range, a reference to no object). *)
Inductive outcome (X : Type) : Type :=
| Done (x : X)
| OutOfFuel
| Undefined.
Arguments Done {X}.
Arguments OutOfFuel {X}.
Arguments Undefined {X}.

(** ** ruts/cas_loop.h: [process_onceish] *)
Module onceish.
Import cas_loop.

Section process_onceish.
(** The range holds elements of [A]; [fn] works on the caller's state
    [F], which is what the world's [closure] stands for here.  The counter
    type [T] is taken to be an integer type wide enough for the length of
    the range. *)
Context {A F : Type}.
Variable env : nat → Z → Z.
Variable indeterminate : Z.

Definition call (fn : A → F → F) (arg : A) (w : world Z F) : world Z F :=
  World (atom w) (clock w) (fn arg (closure w)) (trace w).

(** The body of the [std::for_each] of the input-iterator form, over the
    elements still to come, on the locals [current] and [next]. *)
Fixpoint for_each_onceish (fuel : nat) (fn : A → F → F) (l : list A)
    (current next : Z) (w : world Z F) : option (Z * Z * world Z F) :=
  match l with
  | [] => Some (current, next, w)
  | arg :: l =>
      if decide (current = next) then
        match increment_to_at_least env indeterminate fuel (next + 1)
                (call fn arg w) with
        | Some (r, w') =>
            for_each_onceish fuel fn l (current + 1) (resulting_value r) w'
        | None => None
        end
      else for_each_onceish fuel fn l (current + 1) next w
  end.

(** [process_onceish(a, from, to, fn, std::input_iterator_tag)]; [fuel]
    bounds each inner [increment_to_at_least]. *)
Definition process_onceish_input (fuel : nat) (fn : A → F → F) (l : list A)
    (w : world Z F) : option (world Z F) :=
  let '(next, w1) := load env w in
  match for_each_onceish fuel fn l 0 next w1 with
  | Some (_, _, w') => Some w'
  | None => None
  end.



(** What [fn] makes of the caller's state over a run of elements. *)
Definition apply_all (fn : A → F → F) (l : list A) (f : F) : F :=
  foldl (λ f arg, fn arg f) f l.
End process_onceish.
End onceish.

(** ** ruts/lock_free_stack.h: the shape of a stack *)
Module stack_shape.
Import cas_loop lf_stack.

Section shape.
Context {V : Type}.
Variable env : nat → versioned → versioned.
Variable indeterminate : versioned.

(** From [p] the [next] members lead through exactly the entries [l], in
    that order, and then to [nullptr]. *)
Fixpoint chain (m : heap V) (p : pointer) (l : list addr) : Prop :=
  match l with
  | [] => p = nullptr
  | a :: l => p = Some a ∧ ∃ e, m !! a = Some e ∧ chain m (next e) l
  end.

(** The stack holds the entries [l], top first, each once. *)
Definition holds (s : stack V) (l : list addr) : Prop :=
  chain (entries s) (ptr (_head s)) l ∧ NoDup l.

(** [seg] is a run of allocated entries linked from its first to its
    last, the chain that [push(begin, end)] is given; where the last
    entry's [next] points does not matter. *)
Fixpoint linked (m : heap V) (seg : list addr) : Prop :=
  match seg with
  | [] => True
  | a :: rest =>
      ∃ e, m !! a = Some e ∧
           match rest with
           | [] => True
           | a' :: _ => next e = Some a' ∧ linked m rest
           end
  end.

(** From [p] the [next] members lead through exactly the entries [seg]
    and then to [q]. *)
Fixpoint segment (m : heap V) (p : pointer) (seg : list addr) (q : pointer)
  : Prop :=
  match seg with
  | [] => p = q
  | a :: seg => p = Some a ∧ ∃ e, m !! a = Some e ∧ segment m (next e) seg q
  end.

(** [n] calls of [pop], with the results in the order they came. *)
Fixpoint pop_n (fuel n : nat) (s : stack V)
  : option (list pointer * stack V) :=
  match n with
  | O => Some ([], s)
  | Datatypes.S n =>
      '(ret, s1) ← pop env indeterminate fuel nullptr s;
      '(rets, s2) ← pop_n fuel n s1;
      Some (ret :: rets, s2)
  end.

(** A read-only walk, [for (p = head(); p; p = next(p))], collecting the
    entries it passes; [fuel] bounds its length. *)
Fixpoint walk_from (fuel : nat) (s : stack V) (p : pointer) : list addr :=
  match fuel, p with
  | Datatypes.S fuel, Some a => a :: walk_from fuel s (next_ s a)
  | _, _ => []
  end.

Definition walk (fuel : nat) (s : stack V) : list addr :=
  walk_from fuel s (head env s).
End shape.
End stack_shape.

(** ** mpgc/gc_handshake.h: the walk of [post_handshake] and the deferred
    signals *)
Module handshake_more.
Import gc_handshake.

Section more.
Context {gc_status : Type}.
Variable status : gc_status → Signum.

(** What [post_handshake] makes of a record it visits: nothing of a dead
    one, and under the weak check [DoHandshake] of [InBarrier]. *)
Definition visited (doWeakCheck : bool) (r : in_memory_thread_struct gc_status)
  : in_memory_thread_struct gc_status :=
  if marked_dead r then r
  else if doWeakCheck then (weak_signal_cas InBarrier DoHandshake r).2
  else r.

(** The signals in a trace, as (thread, payload), most recent first. *)
Definition signals_sent (tr : list event) : list (Z * Z) :=
  omap (λ e, match e with
             | EvSigqueue thread sival_int => Some (thread, sival_int)
             | _ => None
             end) tr.

(** The threads a handshake for [sig] has to signal, in registry order,
    with the payload they are sent. *)
Definition notified (sig : Signum) (l : list (in_memory_thread_struct gc_status))
  : list (Z * Z) :=
  (λ r, (pthread r, Signum_to_char sig)) <$>
    filter (λ r, live r ≠ Dead) l.

(** What a deferred signal does: queueing a signal, and yielding the
    processor.  These calls poll nothing else. *)
Inductive devent : Type :=
| DevSigqueue (thread : Z) (sival_int : Z)
| DevYield.

Record dworld : Type := DWorld {
  dmem : memory gc_status;
  dnow : nat;
  dtrace : list devent
}.

Variable env : nat → memory gc_status → memory gc_status.

(** [while (thread_struct.status_idx.load().status() != target)
    pthread_yield();], on the record at position [h]; the other threads
    and the signal handlers run during the yield. *)
Fixpoint spin_until (fuel : nat) (target : Signum) (h : nat) (w : dworld)
  : outcome dworld :=
  match deref (dmem w) h with
  | None => Undefined
  | Some r =>
      if decide (status (status_idx r) ≠ target) then
        match fuel with
        | O => OutOfFuel
        | S fuel =>
            spin_until fuel target h
              (DWorld (env (dnow w) (dmem w)) (S (dnow w))
                      (DevYield :: dtrace w))
        end
      else Done w
  end.

(** [do_deferred_async_signal(thread_struct)] *)
Definition do_deferred_async_signal (fuel : nat) (h : nat) (w : dworld)
  : outcome dworld :=
  match deref (dmem w) h with
  | None => Undefined
  | Some r =>
      spin_until fuel sigAsync h
        (DWorld (dmem w) (dnow w)
                (DevSigqueue (pthread r) (Signum_to_char sigDeferredAsync)
                 :: dtrace w))
  end.

(** [do_deferred_sweep_signal(thread_struct)] *)
Definition do_deferred_sweep_signal (fuel : nat) (h : nat) (w : dworld)
  : outcome dworld :=
  match deref (dmem w) h with
  | None => Undefined
  | Some r =>
      spin_until fuel sigSweep h
        (DWorld (dmem w) (dnow w)
                (DevSigqueue (pthread r) (Signum_to_char sigDeferredSweep)
                 :: dtrace w))
  end.
End more.
End handshake_more.

(** ** mpgc/gc_handshake.h: [dump_offsets] *)
Module dump_offsets.

(** How a member call ends: it returns, it reads or writes an array
    outside its bounds, or its [assert] fails. *)
Inductive result (X : Type) : Type :=
| Ok (x : X)
| OutOfBounds
| AssertionFailed.
Arguments Ok {X}.
Arguments OutOfBounds {X}.
Arguments AssertionFailed {X}.

Section dump_offsets.
(** [T = offset_ptr<const gc_allocated>] *)
Context {T : Type}.

Definition buf_count : nat := 6.
Definition buf_size : N := N.shiftl 1 28.

(** [std::size_t] and [uint8_t] arithmetic wraps. *)
Definition size_t (n : N) : N := n mod 2 ^ 64.
Definition uint8_t (n : N) : N := n mod 2 ^ 8.

(** The members.  A buffer is the block [malloc] returned, [buf_size]
    elements long, of which the map holds the ones written so far. *)
Record dump_offsets : Type := DumpOffsets {
  i : list N;
  buf : list (gmap N T);
  index : N
}.

(** [dump_offsets()] *)
Definition create : dump_offsets :=
  DumpOffsets (replicate buf_count 0%N) (replicate buf_count ∅) 0.

(** [open_dump_file()]: [index = (index + 2) % buf_count;
    i[index] = i[index + 1] = 0;] *)
Definition open_dump_file (d : dump_offsets) : result dump_offsets :=
  let index' := uint8_t ((index d + 2) mod N.of_nat buf_count) in
  if decide (N.to_nat index' + 1 < buf_count)%nat then
    Ok (DumpOffsets
          (<[N.to_nat index' := 0%N]> (<[(N.to_nat index' + 1)%nat := 0%N]> (i d)))
          (buf d) index')
  else OutOfBounds.

(** [buf[at][i[at]++] = p; assert(i[at] <= buf_size);] *)
Definition record_at (at_ : nat) (p : T) (d : dump_offsets)
  : result dump_offsets :=
  if decide (at_ < buf_count)%nat then
    match i d !! at_, buf d !! at_ with
    | Some k, Some b =>
        if decide (k < buf_size)%N then
          let d' := DumpOffsets (<[at_ := size_t (k + 1)]> (i d))
                                (<[at_ := <[k := p]> b]> (buf d))
                                (index d) in
          if decide (size_t (k + 1) ≤ buf_size)%N then Ok d'
          else AssertionFailed
        else OutOfBounds
    | _, _ => OutOfBounds
    end
  else OutOfBounds.

(** [dump_offset(p)] *)
Definition dump_offset (p : T) (d : dump_offsets) : result dump_offsets :=
  record_at (N.to_nat (index d)) p d.

(** [dump_offset_alloc(p)] *)
Definition dump_offset_alloc (p : T) (d : dump_offsets)
  : result dump_offsets :=
  record_at (N.to_nat (index d) + 1) p d.

(** A use of the object: member calls one after the other. *)
Inductive call : Type :=
| OpenDumpFile
| DumpOffset (p : T)
| DumpOffsetAlloc (p : T).

Definition step (c : call) (d : dump_offsets) : result dump_offsets :=
  match c with
  | OpenDumpFile => open_dump_file d
  | DumpOffset p => dump_offset p d
  | DumpOffsetAlloc p => dump_offset_alloc p d
  end.

Fixpoint run (cs : list call) (d : dump_offsets) : result dump_offsets :=
  match cs with
  | [] => Ok d
  | c :: cs =>
      match step c d with
      | Ok d' => run cs d'
      | OutOfBounds => OutOfBounds
      | AssertionFailed => AssertionFailed
      end
  end.

(** The offsets a sequence of calls hands to [dump_offset], and to
    [dump_offset_alloc], in order. *)
Definition offsets (cs : list call) : list T :=
  omap (λ c, match c with DumpOffset p => Some p | _ => None end) cs.
Definition allocs (cs : list call) : list T :=
  omap (λ c, match c with DumpOffsetAlloc p => Some p | _ => None end) cs.
Definition is_dump (c : call) : Prop :=
  match c with OpenDumpFile => False | _ => True end.

(** What the object keeps between calls. *)
Definition well_formed (d : dump_offsets) : Prop :=
  (index d = 0 ∨ index d = 2 ∨ index d = 4)%N ∧
  length (i d) = buf_count ∧ length (buf d) = buf_count ∧
  Forall (λ k, k ≤ buf_size)%N (i d).
End dump_offsets.
End dump_offsets.

(** ** tools/gcdemo/gcdemo.h: the progress bar *)
From Stdlib Require Strings.String.

#[global] Instance outcome_bind : MBind outcome := λ A B f x,
  match x with
  | Done a => f a
  | OutOfFuel => OutOfFuel
  | Undefined => Undefined
  end.

Module gcdemo.
Import Stdlib.Strings.String.StringSyntax.
Local Open Scope string_scope.
Local Open Scope N_scope.

(** What is sent to [cout]: a string, [endl], [flush], and the lines of
    [printMemStats()], which depend on the heap. *)
Inductive output : Type :=
| Put (s : String.string)
| Endl
| Flush
| PrintMemStats.

(** [a / b] and [a % b] on unsigned integers: undefined for [b = 0]. *)
Definition udiv (a b : N) : outcome N :=
  if decide (b = 0) then Undefined else Done (a / b).
Definition urem (a b : N) : outcome N :=
  if decide (b = 0) then Undefined else Done (a mod b).

(** [a && b]: [b] is evaluated only when [a] holds. *)
Definition and_then (a : bool) (b : outcome bool) : outcome bool :=
  if a then b else Done false.

(** [advanceProgressBar(current, max, isDebugMode, numTicks,
    numDivisions)] *)
Definition advanceProgressBar (current max : N) (isDebugMode : bool)
    (numTicks numDivisions : N) : outcome (list output) :=
  if decide (max ≤ current) then Done []
  else
    tick ← udiv max numTicks;
    division ← udiv max numDivisions;
    let isBeginning := bool_decide (current = 0) in
    let isEnd := negb isBeginning && bool_decide (current = max - 1) in
    and_then (negb isEnd)
      (r ← urem current division; Done (bool_decide (r = 0)))
    ≫= λ isDivision : bool,
    and_then (negb isDivision)
      (r ← urem current tick; Done (bool_decide (r = 0)))
    ≫= λ isTick : bool,
    Done
      (if isDebugMode then
         if isDivision then [Endl; PrintMemStats]
         else if isEnd then [Endl; Flush]
         else if isTick then [Put "-"; Flush]
         else []
       else
         if isBeginning then [Put "["; Flush]
         else if isEnd then [Put "]"; Endl; Flush]
         else if isDivision then [Put "|"; Flush]
         else if isTick then [Put "-"; Flush]
         else []).

(** The calls for [current = from, from + 1, ...], [count] of them, one
    after the other, and what they print together. *)
Fixpoint advance_all (count : nat) (from max : N) (isDebugMode : bool)
    (numTicks numDivisions : N) : outcome (list output) :=
  match count with
  | O => Done []
  | S count =>
      out ← advanceProgressBar from max isDebugMode numTicks numDivisions;
      rest ← advance_all count (from + 1) max isDebugMode numTicks numDivisions;
      Done (out ++ rest)
  end.
End gcdemo.

(** ** Concrete instances used in the further examples *)
Module sample.
Import cas_loop lf_stack gc_handshake.

(** A range of three elements, a function that collects what it is given
    (most recent first), and a counter that already stands at 1. *)
Definition items : list Z := [10; 20; 30].
Definition collect (a : Z) (seen : list Z) : list Z := a :: seen.
Definition started : cas_loop.world Z (list Z) := cas_loop.World 1 0 [] [].

(** Four entries: a stack holding entry 1 on top of entry 2, and entry 3
    linked to entry 4, both allocated but not on the stack. *)
Definition four_entries : heap Z :=
  <[1%positive := Entry 10 (Some 2%positive)]>
    (<[2%positive := Entry 20 nullptr]>
       (<[3%positive := Entry 30 (Some 4%positive)]>
          (<[4%positive := Entry 40 nullptr]> ∅))).
Definition two_on : stack Z :=
  cas_loop.World (Versioned (Some 1%positive) 2) 0 four_entries [].

(** Another thread that moves the head's version on once, just before
    this thread's first compare-and-swap. *)
Definition bump_once : nat → versioned → versioned :=
  λ n h, if decide (n = 1%nat) then Versioned (ptr h) (version h + 1) else h.

(** A registry of a thread parked in a barrier, a dead thread and a busy
    one. *)
Definition gone : in_memory_thread_struct Signum :=
  Thread 4 16384 0 0 sigInit Working Dead true sigInit true false false.
Definition mixed : gc_handshake.world Signum :=
  gc_handshake.World (Memory [example.in_barrier; gone; example.busy] 0) 0 [].

(** A busy thread about to send itself a deferred signal while the
    termination flag is raised. *)
Definition deferring : handshake_more.dworld (gc_status := Signum) :=
  handshake_more.DWorld (Memory [example.busy] 1) 0 [].

(** A dump of three offsets, and an object whose first buffer is full. *)
Definition three_offsets : list (dump_offsets.call (T := Z)) :=
  [dump_offsets.DumpOffset 1; dump_offsets.DumpOffsetAlloc 2;
   dump_offsets.DumpOffset 3].
Definition full : dump_offsets.dump_offsets (T := Z) :=
  dump_offsets.DumpOffsets
    [dump_offsets.buf_size; 0; 0; 0; 0; 0]%N
    (replicate dump_offsets.buf_count ∅) 0.
End sample.

(** * Properties of the retry primitive *)
Section cas_loop_properties.
Import cas_loop.
Context {T : Type} `{EqDecision T} {S : Type}.
Implicit Types (w : world T S) (r : cas_loop_return_value T).
Implicit Types (continue_fn : fn T S bool) (update_fn : fn T S T).

(** One pass through [try_once] either is vetoed, touching nothing but
    the closure, or makes exactly one attempt. *)
Lemma try_once_veto env continue_fn update_fn r w :
  (continue_fn (prior_value r) (closure w)).1 = false →
  try_once env continue_fn update_fn r w =
    (true, CLRV false (prior_value r) (new_value r),
     log (EvContinue (prior_value r) false)
         (continue_fn (prior_value r) (closure w)).2 w).
Proof.
  unfold try_once. destruct (continue_fn _ _) as [c s]; simpl.
  by intros ->.
Qed.

Lemma try_once_attempt env continue_fn update_fn r w :
  (continue_fn (prior_value r) (closure w)).1 = true →
  let p := prior_value r in
  let s1 := (continue_fn p (closure w)).2 in
  let nv := (update_fn p s1).1 in
  let s2 := (update_fn p s1).2 in
  let tr := EvUpdate p nv :: EvContinue p true :: trace w in
  try_once env continue_fn update_fn r w =
    if decide (observe env w = p)
    then (true, CLRV true p nv,
          World nv (Datatypes.S (clock w)) s2 (EvCas p nv true :: tr))
    else (false, CLRV false (observe env w) nv,
          World (observe env w) (Datatypes.S (clock w)) s2
                (EvCas p nv false :: tr)).
Proof.
  unfold try_once, _update, compare_exchange_strong, observe, log.
  destruct (continue_fn _ _) as [c s1]; simpl. intros ->; simpl.
  destruct (update_fn _ _) as [nv s2]; simpl.
  by destruct (decide _).
Qed.

Lemma first_try_try_once env continue_fn update_fn r w :
  first_try env continue_fn update_fn r w =
    try_once env continue_fn update_fn
      (CLRV (succeeded r) (observe env w) (new_value r)) (load env w).2.
Proof. reflexivity. Qed.

(** [loop] is [try_more] started on the loaded value. *)
Lemma loop_try_more env fuel continue_fn update_fn r w :
  loop env fuel continue_fn update_fn r w =
    try_more env (Datatypes.S fuel) continue_fn update_fn
      (CLRV (succeeded r) (observe env w) (new_value r)) (load env w).2.
Proof. reflexivity. Qed.

(** A veto at the first observation: the load and one call of
    [continue_fn] are all that happens. *)
Lemma first_try_veto env continue_fn update_fn r w :
  (continue_fn (observe env w) (closure w)).1 = false →
  first_try env continue_fn update_fn r w =
    (true, CLRV false (observe env w) (new_value r),
     World (observe env w) (Datatypes.S (clock w))
           (continue_fn (observe env w) (closure w)).2
           (EvContinue (observe env w) false
            :: EvLoad (observe env w) :: trace w)).
Proof.
  intros Hveto. rewrite first_try_try_once.
  by rewrite try_once_veto.
Qed.

(** C5.  If [continue_fn] refuses the first value observed, [loop] and
    [once] both come back with [succeeded = false]; [update_fn] has not
    been called, no compare-and-swap has been attempted, the operation has
    stored nothing and the word holds what was observed. *)
Theorem veto_on_first_observation env fuel continue_fn update_fn r w :
  (continue_fn (observe env w) (closure w)).1 = false →
  ∃ r' w',
    loop env fuel continue_fn update_fn r w = Some (r', w') ∧
    once env continue_fn update_fn r w = (r', w') ∧
    succeeded r' = false ∧
    update_calls (trace w') = update_calls (trace w) ∧
    cas_attempts (trace w') = cas_attempts (trace w) ∧
    stores (trace w') = stores (trace w) ∧
    atom w' = observe env w.
Proof.
  intros Hveto.
  pose proof (first_try_veto env continue_fn update_fn r w Hveto) as Hstep.
  eexists _, _. split; [|split].
  - unfold loop. rewrite Hstep. reflexivity.
  - unfold once. rewrite Hstep. reflexivity.
  - done.
Qed.

Lemma try_more_settled env continue_fn update_fn fuel : ∀ r w r' w',
  atom w = prior_value r →
  try_more env fuel continue_fn update_fn r w = Some (r', w') →
  settled continue_fn update_fn w r' w'.
Proof.
  induction fuel as [|fuel IH]; intros r w r' w' Hseen Hrun; simpl in Hrun.
  all: destruct (continue_fn (prior_value r) (closure w)).1 eqn:Hc.
  all: first [ rewrite (try_once_attempt _ _ _ _ _ Hc) in Hrun
             | rewrite (try_once_veto _ _ _ _ _ Hc) in Hrun ].
  all: simpl in Hrun; try destruct (decide (observe env w = prior_value r));
    simplify_eq; unfold settled; simpl; eauto 10.
  apply IH in Hrun; [|done]. revert Hrun. unfold settled; simpl.
  destruct (succeeded r'); naive_solver.
Qed.

Lemma loop_settled env continue_fn update_fn fuel r w r' w' :
  loop env fuel continue_fn update_fn r w = Some (r', w') →
  settled continue_fn update_fn w r' w'.
Proof.
  rewrite loop_try_more. intros Hrun.
  apply try_more_settled in Hrun; [|done]. exact Hrun.
Qed.
End cas_loop_properties.

Section bounded_properties.
Import cas_loop.
Context {T : Type} `{EqDecision T} {S : Type}.
Implicit Types (continue_fn : fn T S bool) (update_fn : fn T S T).

(** The bounded form: the captured counter bounds the attempts still to
    come, and the fuel the loop needs. *)
Lemma try_more_max_tries env continue_fn update_fn fuel :
  ∀ (r : cas_loop_return_value T) (w : world T (Z * S)),
  (Z.to_nat (closure w).1 ≤ fuel)%nat →
  ∃ r' (w' : world T (Z * S)),
    try_more env fuel (max_tries_continue continue_fn)
      (with_max_tries update_fn) r w = Some (r', w') ∧
    (cas_attempts (trace w') ≤
       cas_attempts (trace w) + Z.to_nat (closure w).1)%nat.
Proof.
  induction fuel as [|fuel IH]; intros r w Hfuel.
  all: destruct (max_tries_continue continue_fn (prior_value r)
                   (closure w)).1 eqn:Hc.
  all: simpl;
    first [ rewrite (try_once_attempt _ _ _ _ _ Hc)
          | rewrite (try_once_veto _ _ _ _ _ Hc) ].
  all: try (eexists _, _; split;
            [reflexivity|unfold cas_attempts; simpl; lia]).
  all: assert (0 < (closure w).1) as Hm
    by (revert Hc; unfold max_tries_continue;
        destruct (closure w) as [m s]; simpl;
        destruct (decide (0 < m)); [done|by intros [=]]).
  - lia.
  - destruct (decide (observe env w = prior_value r)).
    { eexists _, _; split; [reflexivity|unfold cas_attempts; simpl; lia]. }
    match goal with
    | |- ∃ r' w', try_more _ _ _ _ ?r1 ?w1 = _ ∧ _ =>
        destruct (IH r1 w1) as (r' & w' & Hrun & Hn)
    end.
    + revert Hm Hfuel. unfold max_tries_continue, with_max_tries; simpl.
      destruct (closure w) as [m s]; simpl.
      destruct (decide (0 < m)); [|lia].
      destruct (continue_fn (prior_value r) s) as [b s']; simpl.
      destruct (update_fn (prior_value r) s'); simpl. lia.
    + exists r', w'. split; [exact Hrun|].
      revert Hn Hm. unfold cas_attempts, max_tries_continue, with_max_tries.
      simpl. destruct (closure w) as [m s]; simpl.
      destruct (decide (0 < m)); [|lia].
      destruct (continue_fn (prior_value r) s) as [b s']; simpl.
      destruct (update_fn (prior_value r) s'); simpl. lia.
Qed.

(** C6.  For [0 ≤ K], the bounded form
    [try_cas_loop(a, K, continue_fn, update_fn)] returns after at most [K]
    compare-and-swap attempts, whatever the other threads do; when it
    reports failure it has stored nothing, and with [K = 0] it fails
    without a single attempt and leaves the word as observed. *)
Theorem bounded_retry env indeterminate fuel K continue_fn update_fn
    (w : world T S) :
  0 ≤ K → (Z.to_nat K ≤ fuel)%nat →
  ∃ r' w',
    try_cas_loop_max env indeterminate fuel K continue_fn update_fn w
      = Some (r', w') ∧
    (cas_attempts (trace w') ≤ cas_attempts (trace w) + Z.to_nat K)%nat ∧
    (succeeded r' = false → stores (trace w') = stores (trace w)) ∧
    (K = 0 →
     succeeded r' = false ∧
     cas_attempts (trace w') = cas_attempts (trace w) ∧
     stores (trace w') = stores (trace w) ∧
     atom w' = observe env w).
Proof.
  intros HK Hfuel. unfold try_cas_loop_max, try_cas_loop.
  destruct (try_more_max_tries env continue_fn update_fn
              (Datatypes.S fuel)
              (CLRV false (observe env (enter K w)) indeterminate)
              (load env (enter K w)).2) as (r' & w' & Hrun & Hn).
  { simpl. lia. }
  rewrite loop_try_more. simpl succeeded. simpl new_value.
  rewrite Hrun. eexists _, _. split; [reflexivity|]. split.
  { exact Hn. }
  split.
  { apply try_more_settled in Hrun; [|done]. revert Hrun.
    unfold settled. intros Hrun Hs. rewrite Hs in Hrun. apply Hrun. }
  intros ->.
  pose proof (loop_try_more env fuel (max_tries_continue continue_fn)
                (with_max_tries update_fn) (default_clrv indeterminate)
                (enter 0 w)) as Hloop.
  unfold loop in Hloop. rewrite first_try_veto in Hloop by done.
  simpl succeeded in Hloop. simpl new_value in Hloop.
  rewrite Hrun in Hloop. by simplify_eq.
Qed.
End bounded_properties.

Section derived_properties.
Import cas_loop.

(** C9.  When [change(a, from, to)] finds the word different from
    [from], the outcome has [succeeded = false], its [prior_value] and
    [resulting_value()] are the value observed, and the word is untouched;
    when the word equals [from], the word becomes [to] and
    [resulting_value()] is [to]. *)
Theorem change_reports_observed {T : Type} `{EqDecision T} {S : Type}
    env (from to : T) r (w : world T S) r' w' :
  change env from to r w = (r', w') →
  (observe env w ≠ from →
   succeeded r' = false ∧ prior_value r' = observe env w ∧
   resulting_value r' = observe env w ∧ atom w' = observe env w ∧
   stores (trace w') = stores (trace w)) ∧
  (observe env w = from →
   succeeded r' = true ∧ resulting_value r' = to ∧ atom w' = to ∧
   stores (trace w') = to :: stores (trace w)).
Proof.
  unfold change, compare_exchange_strong.
  destruct (decide (observe env w = from)); intros [= <- <-]; done.
Qed.

(** C7.  Whenever [increment_to_at_least(a, to)] returns, its
    [resulting_value()] is at least [to]: on success the value it replaced
    was below [to] and the word now holds exactly [to]; on failure the
    value seen was already at least [to] and nothing was stored.  With no
    other thread running it always returns, succeeding exactly when the
    word was below [to], and the word never decreases. *)
Theorem increment_to_at_least_spec {S : Type} env indeterminate fuel to
    (w : world Z S) :
  (∀ r' w',
     increment_to_at_least env indeterminate fuel to w = Some (r', w') →
     to ≤ resulting_value r' ∧
     if succeeded r'
     then prior_value r' < to ∧ new_value r' = to ∧ atom w' = to ∧
          stores (trace w') = to :: stores (trace w)
     else to ≤ prior_value r' ∧ atom w' = prior_value r' ∧
          stores (trace w') = stores (trace w)) ∧
  (∃ r' w',
     increment_to_at_least quiet indeterminate fuel to w = Some (r', w') ∧
     prior_value r' = atom w ∧ atom w ≤ atom w' ∧
     (atom w < to → succeeded r' = true ∧ atom w' = to) ∧
     (to ≤ atom w → succeeded r' = false ∧ atom w' = atom w)).
Proof.
  split.
  - intros r' w' Hrun. apply loop_settled in Hrun. revert Hrun.
    unfold settled, resulting_value, pure_fn; simpl.
    destruct (succeeded r').
    + intros ((s & Hlt%bool_decide_eq_true & Hnew) & Hat & Hst).
      rewrite Hnew in *. split_and!; [lia|done..].
    + intros ((s & Hge%bool_decide_eq_false) & Hat & Hst).
      split_and!; [lia..|done|done].
  - unfold increment_to_at_least, try_cas_loop. rewrite loop_try_more.
    simpl. destruct (bool_decide (atom w < to)) eqn:Hlt.
    + apply bool_decide_eq_true in Hlt.
      rewrite try_once_attempt by (simpl; by apply bool_decide_eq_true).
      simpl. rewrite decide_True by done.
      eexists _, _. split; [reflexivity|]. simpl. split_and!; (done || lia).
    + apply bool_decide_eq_false in Hlt.
      rewrite try_once_veto by (simpl; by apply bool_decide_eq_false).
      eexists _, _. split; [reflexivity|]. simpl. split_and!; (done || lia).
Qed.
End derived_properties.

(** * Properties of the lock-free stack *)
Section lf_stack_properties.
Import cas_loop lf_stack.
Context {V : Type}.
Implicit Types (s : stack V) (h : versioned).

Lemma advanced_refl {S} (w : world versioned S) : advanced 0 w w.
Proof. unfold advanced. split; [lia|]. simpl. lia. Qed.

Lemma advanced_trans {S1 S2 S3} j k (w1 : world versioned S1)
    (w2 : world versioned S2) (w3 : world versioned S3) :
  advanced j w1 w2 → advanced k w2 w3 → advanced (j + k) w1 w3.
Proof. unfold advanced. intros [? ?] [? ?]. split; lia. Qed.

Lemma advanced_same {S1 S2 S3} k (w1 : world versioned S1)
    (w2 : world versioned S2) (w3 : world versioned S3) :
  atom w3 = atom w2 → stores (trace w3) = stores (trace w2) →
  advanced k w1 w2 → advanced k w1 w3.
Proof. unfold advanced, updates. intros -> ->. done. Qed.

(** With nobody else running, a retry loop whose closure bumps the
    version keeps the count of updates and the version in step. *)
Lemma try_more_advanced {S} (c : fn versioned S bool)
    (u : fn versioned S versioned) :
  (∀ h m, version (u h m).1 = (version h + 1)%N) →
  ∀ fuel r w r' w',
    try_more quiet fuel c u r w = Some (r', w') → ∃ k, advanced k w w'.
Proof.
  intros Hu. induction fuel as [|fuel IH]; intros r w r' w' Hrun.
  all: simpl in Hrun.
  all: destruct (c (prior_value r) (closure w)).1 eqn:Hc.
  all: first [ rewrite (try_once_attempt _ _ _ _ _ Hc) in Hrun
             | rewrite (try_once_veto _ _ _ _ _ Hc) in Hrun ].
  all: simpl in Hrun.
  all: try destruct (decide (observe quiet w = prior_value r)) as [Heq|Hne].
  all: simplify_eq.
  all: try (exists 0%nat; by split; [unfold updates; simpl; lia|simpl; lia]).
  all: try (exists 1%nat; split;
            [unfold updates; simpl; lia
            |simpl; rewrite Hu, <- Heq; unfold observe, quiet; lia]).
  apply IH in Hrun as [k Hk]. exists k.
  revert Hk. unfold advanced, updates, observe, quiet. simpl. done.
Qed.

Lemma loop_advanced {S} (c : fn versioned S bool)
    (u : fn versioned S versioned) fuel r (w : world versioned S) r' w' :
  (∀ h m, version (u h m).1 = (version h + 1)%N) →
  loop quiet fuel c u r w = Some (r', w') → ∃ k, advanced k w w'.
Proof.
  intros Hu. rewrite loop_try_more. intros Hrun.
  apply (try_more_advanced c u Hu) in Hrun as [k Hk]. exists k.
  revert Hk. unfold advanced, updates. simpl. done.
Qed.

Lemma push_advanced indeterminate fuel p s s' :
  push quiet indeterminate fuel p s = Some s' → ∃ k, advanced k s s'.
Proof.
  unfold push, update, cas_loop.cas_loop, try_cas_loop.
  intros Hrun. apply fmap_Some in Hrun as ([r' w'] & Hrun & ->).
  by apply loop_advanced in Hrun.
Qed.

Lemma push_range_advanced indeterminate fuel b e s s' :
  push_range quiet indeterminate fuel b e s = Some s' →
  ∃ k, advanced k s s'.
Proof.
  unfold push_range, update, cas_loop.cas_loop, try_cas_loop.
  intros Hrun. apply fmap_Some in Hrun as ([r' w'] & Hrun & ->).
  by apply loop_advanced in Hrun.
Qed.

Lemma pop_advanced indeterminate fuel ret s ret' s' :
  pop quiet indeterminate fuel ret s = Some (ret', s') →
  ∃ k, advanced k s s'.
Proof.
  unfold pop, try_update, try_cas_loop.
  destruct (loop _ _ _ _ _ _) as [[r' w']|] eqn:Hrun; [|done].
  intros [= <- <-]. apply loop_advanced in Hrun as [k Hk]; [|done].
  exists k. revert Hk. unfold advanced, updates. simpl. done.
Qed.

Lemma clear_loop_advanced indeterminate assign fuel :
  ∀ temp s s',
    clear_loop quiet indeterminate assign fuel temp s = Some s' →
    ∃ k, advanced k s s'.
Proof.
  induction fuel as [|fuel IH]; intros temp s s'; simpl.
  all: destruct (ptr temp) as [t|] eqn:Ht; [|intros [= <-]; exists 0%nat;
                                               apply advanced_refl].
  { done. }
  unfold inc_and_change, try_change_value, change, compare_exchange_strong.
  destruct (decide (observe quiet s = temp)) as [Heq|Hne]; simpl.
  - intros Hrun. apply IH in Hrun as [k Hk]. exists (1 + k)%nat.
    eapply advanced_trans; [|exact Hk].
    unfold advanced, updates, deallocate. simpl.
    split; [lia|]. rewrite <- Heq. unfold observe, quiet. lia.
  - intros Hrun. apply IH in Hrun as [k Hk]. exists k.
    revert Hk. unfold advanced, updates, observe, quiet. simpl. done.
Qed.

Lemma clear_advanced indeterminate assign fuel s s' :
  clear quiet indeterminate assign fuel s = Some s' → ∃ k, advanced k s s'.
Proof.
  unfold clear, contents, load. intros Hrun.
  apply clear_loop_advanced in Hrun as [k Hk]. exists k.
  revert Hk. unfold advanced, updates, observe, quiet. simpl. done.
Qed.

Lemma run_op_advanced indeterminate assign fuel o s s' :
  run_op quiet indeterminate assign fuel o s = Some s' →
  ∃ k, advanced k s s'.
Proof.
  destruct o; simpl.
  - intros [= <-]. exists 0%nat. unfold advanced, updates. simpl.
    split; lia.
  - intros [= <-]. exists 0%nat. unfold advanced, updates. simpl.
    split; lia.
  - apply push_advanced.
  - apply push_range_advanced.
  - intros Hrun. apply fmap_Some in Hrun as ([ret' s1] & Hrun & ->).
    by apply pop_advanced in Hrun.
  - apply clear_advanced.
Qed.

Lemma run_advanced indeterminate assign fuel ops : ∀ s s',
  run quiet indeterminate assign fuel ops s = Some s' →
  ∃ k, advanced k s s'.
Proof.
  induction ops as [|o ops IH]; intros s s'; simpl.
  - intros [= <-]. exists 0%nat. apply advanced_refl.
  - intros Hrun. apply bind_Some in Hrun as (s1 & Hop & Hrun).
    apply run_op_advanced in Hop as [j Hj].
    apply IH in Hrun as [k Hk]. exists (j + k)%nat.
    by eapply advanced_trans.
Qed.

(** Under any interference, what push, pop and clear propose always
    carries the version after the one they expected. *)
Lemma bumps_cons e tr :
  (∀ x d ok, e = EvCas x d ok → version d = (version x + 1)%N) →
  bumps tr → bumps (e :: tr).
Proof.
  intros He Htr x d ok [Heq|Hin]%elem_of_cons; [by eapply He|by eapply Htr].
Qed.

Lemma try_more_bumps {S} env (c : fn versioned S bool)
    (u : fn versioned S versioned) :
  (∀ h m, version (u h m).1 = (version h + 1)%N) →
  ∀ fuel r w r' w',
    bumps (trace w) →
    try_more env fuel c u r w = Some (r', w') → bumps (trace w').
Proof.
  intros Hu. induction fuel as [|fuel IH]; intros r w r' w' Hw Hrun.
  all: simpl in Hrun.
  all: destruct (c (prior_value r) (closure w)).1 eqn:Hc.
  all: first [ rewrite (try_once_attempt _ _ _ _ _ Hc) in Hrun
             | rewrite (try_once_veto _ _ _ _ _ Hc) in Hrun ].
  all: simpl in Hrun.
  all: try destruct (decide (observe env w = prior_value r)) as [Heq|Hne].
  all: simplify_eq; simpl.
  all: try (eapply IH; [|eassumption]; simpl).
  all: repeat (apply bumps_cons; [intros ??? [=]; by subst|]); done.
Qed.

Lemma loop_bumps {S} env (c : fn versioned S bool)
    (u : fn versioned S versioned) fuel r (w : world versioned S) r' w' :
  (∀ h m, version (u h m).1 = (version h + 1)%N) →
  bumps (trace w) →
  loop env fuel c u r w = Some (r', w') → bumps (trace w').
Proof.
  intros Hu Hw. rewrite loop_try_more. apply try_more_bumps; [done|].
  simpl. apply bumps_cons; [by intros ??? [=]|done].
Qed.

Lemma clear_loop_bumps env indeterminate assign fuel : ∀ temp s s',
  bumps (trace s) →
  clear_loop env indeterminate assign fuel temp s = Some s' →
  bumps (trace s').
Proof.
  induction fuel as [|fuel IH]; intros temp s s' Hs; simpl.
  all: destruct (ptr temp) as [t|] eqn:Ht; [|by intros [= <-]].
  { done. }
  unfold inc_and_change, try_change_value, change, compare_exchange_strong.
  destruct (decide (observe env s = temp)); simpl.
  all: apply IH; simpl.
  all: apply bumps_cons; [intros ??? [=]; by subst|done].
Qed.

Lemma run_op_bumps env indeterminate assign fuel o s s' :
  bumps (trace s) →
  run_op env indeterminate assign fuel o s = Some s' → bumps (trace s').
Proof.
  intros Hs. destruct o; simpl.
  - by intros [= <-].
  - by intros [= <-].
  - unfold push, update, cas_loop.cas_loop, try_cas_loop.
    intros Hrun. apply fmap_Some in Hrun as ([r' w'] & Hrun & ->).
    by apply loop_bumps in Hrun.
  - unfold push_range, update, cas_loop.cas_loop, try_cas_loop.
    intros Hrun. apply fmap_Some in Hrun as ([r' w'] & Hrun & ->).
    by apply loop_bumps in Hrun.
  - intros Hrun. apply fmap_Some in Hrun as ([ret' s1] & Hrun & ->).
    revert Hrun. unfold pop, try_update, try_cas_loop.
    destruct (loop _ _ _ _ _ _) as [[r' w']|] eqn:Hrun; [|done].
    intros [= <- <-]. by apply loop_bumps in Hrun.
  - unfold clear, contents, load. apply clear_loop_bumps. simpl.
    apply bumps_cons; [by intros ??? [=]|done].
Qed.

(** C3.  Every compare-and-swap that push, pop or clear attempt on the
    head proposes the version after the one it expected, under any
    interference; and over any history of such calls the version of the
    head grows by the number of successful updates, so that after at least
    one of them the head differs from the value observed before and a
    compare-and-swap expecting that value fails, wherever the pointer part
    has returned to. *)
Theorem version_guards_head indeterminate assign :
  (∀ env fuel o s s',
     bumps (trace s) →
     run_op env indeterminate assign fuel o s = Some s' →
     bumps (trace s')) ∧
  (∀ fuel ops s s',
     run quiet indeterminate assign fuel ops s = Some s' →
     ∃ k, advanced k s s' ∧
          ((0 < k)%nat →
           _head s' ≠ _head s ∧
           ∀ desired,
             compare_exchange_strong quiet (_head s) desired s' =
               (false, _head s',
                World (_head s') (Datatypes.S (clock s')) (entries s')
                      (EvCas (_head s) desired false :: trace s')))).
Proof.
  split; [intros *; apply run_op_bumps|].
  intros fuel ops s s' Hrun.
  apply run_advanced in Hrun as [k Hk]. exists k. split; [done|].
  intros Hpos.
  assert (_head s' ≠ _head s) as Hne.
  { destruct Hk as [_ Hv]. unfold _head. intros Heq. rewrite Heq in Hv.
    lia. }
  split; [done|]. intros desired.
  unfold compare_exchange_strong, observe, quiet.
  by rewrite decide_False.
Qed.

(** With nobody else running, push and pop succeed at the first
    attempt. *)
Lemma push_quiet indeterminate fuel p s :
  push quiet indeterminate fuel p s =
    Some (World (inc_and_set (_head s) (Some p))
                (Datatypes.S (Datatypes.S (clock s)))
                (set_next p (ptr (_head s)) (entries s))
                (EvCas (_head s) (inc_and_set (_head s) (Some p)) true
                 :: EvUpdate (_head s) (inc_and_set (_head s) (Some p))
                 :: EvContinue (_head s) true
                 :: EvLoad (_head s) :: trace s)).
Proof.
  unfold push, update, cas_loop.cas_loop, try_cas_loop.
  rewrite loop_try_more. simpl.
  rewrite try_once_attempt by done. simpl.
  by rewrite decide_True.
Qed.

Lemma pop_quiet indeterminate fuel ret s a :
  ptr (_head s) = Some a →
  let h' := inc_and_set (_head s) (next_of (entries s) (Some a)) in
  pop quiet indeterminate fuel ret s =
    Some (Some a,
          World h' (Datatypes.S (Datatypes.S (clock s))) (entries s)
                (EvCas (_head s) h' true :: EvUpdate (_head s) h'
                 :: EvContinue (_head s) true
                 :: EvLoad (_head s) :: trace s)).
Proof.
  intros Ha. unfold pop, try_update, try_cas_loop.
  rewrite loop_try_more. simpl.
  rewrite try_once_attempt.
  2:{ simpl. unfold pop_continue, observe, quiet. simpl.
      unfold _head in Ha. rewrite Ha. done. }
  simpl. rewrite decide_True by done. simpl.
  unfold pop_continue, pop_update, observe, quiet. simpl.
  unfold _head in Ha. rewrite Ha. simpl. done.
Qed.

Lemma pop_on_empty env indeterminate fuel ret s :
  ptr (observe env s) = nullptr →
  pop env indeterminate fuel ret s =
    Some (nullptr,
          World (observe env s) (Datatypes.S (clock s)) (entries s)
                (EvContinue (observe env s) false
                 :: EvLoad (observe env s) :: trace s)).
Proof.
  intros Hnull. unfold pop, try_update, try_cas_loop.
  rewrite loop_try_more. simpl.
  rewrite try_once_veto.
  2:{ simpl. unfold pop_continue. by rewrite decide_True. }
  simpl. unfold pop_continue. by rewrite decide_True.
Qed.

Lemma lookup_set_next (m : gmap addr (entry V)) e q a :
  set_next e q m !! a =
    if decide (e = a) then (λ x, Entry (value x) q) <$> m !! a else m !! a.
Proof.
  unfold set_next. destruct (decide (e = a)) as [->|Hne].
  - by rewrite lookup_alter_eq.
  - by rewrite lookup_alter_ne.
Qed.

Lemma run_cons env indeterminate assign fuel o ops s :
  run env indeterminate assign fuel (o :: ops) s =
    run_op env indeterminate assign fuel o s
      ≫= run env indeterminate assign fuel ops.
Proof. reflexivity. Qed.

(** An entry allocated and pushed becomes the head, linked to the old
    head; every other entry is as it was. *)
Lemma allocate_push_quiet indeterminate assign fuel a v s :
  ∃ s',
    run quiet indeterminate assign fuel [Allocate a v; Push a] s
      = Some s' ∧
    _head s' = Versioned (Some a) (version (_head s) + 1) ∧
    entries s' !! a = Some (Entry v (ptr (_head s))) ∧
    ∀ b, b ≠ a → entries s' !! b = entries s !! b.
Proof.
  eexists. split.
  { repeat (rewrite run_cons; cbn [run_op allocate snd mbind option_bind]).
    rewrite push_quiet. reflexivity. }
  split; [done|]. simpl. split.
  - by rewrite lookup_set_next, decide_True, lookup_insert_eq.
  - intros b Hb. by rewrite lookup_set_next, decide_False, lookup_insert_ne.
Qed.

(** A pop of a non-empty stack hands out the head entry and moves the head
    to its [next]. *)
Lemma pop_quiet_entry indeterminate fuel ret s a e :
  ptr (_head s) = Some a → entries s !! a = Some e →
  ∃ s',
    pop quiet indeterminate fuel ret s = Some (Some a, s') ∧
    _head s' = Versioned (next e) (version (_head s) + 1) ∧
    entries s' = entries s.
Proof.
  intros Ha He. eexists. split; [by apply pop_quiet|].
  split; [|done]. simpl. unfold inc_and_set, next_of. simpl.
  by rewrite He.
Qed.

Lemma run_app env indeterminate assign fuel ops1 ops2 s :
  run env indeterminate assign fuel (ops1 ++ ops2) s =
    run env indeterminate assign fuel ops1 s
      ≫= run env indeterminate assign fuel ops2.
Proof.
  revert s. induction ops1 as [|o ops1 IH]; intros s; [done|].
  simpl. destruct (run_op _ _ _ _ _ _) as [s1|]; [apply IH|done].
Qed.

(** C4.  Used by one thread, an empty stack on which three entries
    holding [v1], [v2], [v3] are pushed gives them back in the order [v3],
    [v2], [v1], and a fourth pop sets the result to null and leaves head
    and entries as they are.  In general a pop that finds the head null
    reports null at once, for any fuel and any interference, without
    attempting a compare-and-swap and without changing the entries. *)
Theorem single_thread_lifo indeterminate assign fuel :
  (∀ (v1 v2 v3 : V) (a1 a2 a3 : addr) ret,
     a1 ≠ a2 → a1 ≠ a3 → a2 ≠ a3 →
     ∃ s3 s4 s5 s6 s7,
       run quiet indeterminate assign fuel
         [Allocate a1 v1; Push a1; Allocate a2 v2; Push a2;
          Allocate a3 v3; Push a3] empty_stack = Some s3 ∧
       pop quiet indeterminate fuel ret s3 = Some (Some a3, s4) ∧
       value_of (entries s4) (Some a3) = Some v3 ∧
       pop quiet indeterminate fuel (Some a3) s4 = Some (Some a2, s5) ∧
       value_of (entries s5) (Some a2) = Some v2 ∧
       pop quiet indeterminate fuel (Some a2) s5 = Some (Some a1, s6) ∧
       value_of (entries s6) (Some a1) = Some v1 ∧
       pop quiet indeterminate fuel (Some a1) s6 = Some (nullptr, s7) ∧
       _head s7 = _head s6 ∧ entries s7 = entries s6) ∧
  (∀ env ret s,
     ptr (observe env s) = nullptr →
     ∃ s',
       pop env indeterminate fuel ret s = Some (nullptr, s') ∧
       _head s' = observe env s ∧ entries s' = entries s ∧
       cas_attempts (trace s') = cas_attempts (trace s) ∧
       stores (trace s') = stores (trace s)).
Proof.
  split.
  - intros v1 v2 v3 a1 a2 a3 ret H12 H13 H23.
    destruct (allocate_push_quiet indeterminate assign fuel a1 v1 empty_stack)
      as (s1 & Hrun1 & Hh1 & Ha1 & _).
    destruct (allocate_push_quiet indeterminate assign fuel a2 v2 s1)
      as (s2 & Hrun2 & Hh2 & Ha2 & Hother2).
    destruct (allocate_push_quiet indeterminate assign fuel a3 v3 s2)
      as (s3 & Hrun3 & Hh3 & Ha3 & Hother3).
    rewrite Hh2 in Ha3. rewrite Hh1 in Ha2. simpl in Ha1, Ha2, Ha3.
    assert (entries s3 !! a2 = Some (Entry v2 (Some a1))) as Hb2
      by (by rewrite Hother3).
    assert (entries s3 !! a1 = Some (Entry v1 nullptr)) as Hb1
      by (by rewrite Hother3, Hother2).
    destruct (pop_quiet_entry indeterminate fuel ret s3 a3 _
                ltac:(by rewrite Hh3) Ha3) as (s4 & Hpop4 & Hh4 & He4).
    rewrite <- He4 in Ha3, Hb2, Hb1.
    destruct (pop_quiet_entry indeterminate fuel (Some a3) s4 a2 _
                ltac:(by rewrite Hh4) Hb2) as (s5 & Hpop5 & Hh5 & He5).
    rewrite <- He5 in Hb2, Hb1.
    destruct (pop_quiet_entry indeterminate fuel (Some a2) s5 a1 _
                ltac:(by rewrite Hh5) Hb1) as (s6 & Hpop6 & Hh6 & He6).
    rewrite <- He6 in Hb1.
    exists s3, s4, s5, s6.
    eexists. split_and!.
    + change [Allocate a1 v1; Push a1; Allocate a2 v2; Push a2;
              Allocate a3 v3; Push a3]
        with ([Allocate a1 v1; Push a1] ++ [Allocate a2 v2; Push a2]
              ++ [Allocate a3 v3; Push a3]).
      rewrite run_app, Hrun1. cbn [mbind option_bind].
      rewrite run_app, Hrun2. cbn [mbind option_bind].
      exact Hrun3.
    + exact Hpop4.
    + unfold value_of. simpl. by rewrite Ha3.
    + exact Hpop5.
    + unfold value_of. simpl. by rewrite Hb2.
    + exact Hpop6.
    + unfold value_of. simpl. by rewrite Hb1.
    + apply pop_on_empty. unfold observe, quiet. unfold _head in Hh6.
      by rewrite Hh6.
    + done.
    + done.
  - intros env ret s Hnull. eexists. split; [by apply pop_on_empty|done].
Qed.
End lf_stack_properties.

(** * Properties of the handshake *)
Section handshake_properties.
Import gc_handshake.
Context {gc_status : Type}.
Variable status : gc_status → Signum.
Implicit Types (r : in_memory_thread_struct gc_status).
Implicit Types (w : world gc_status) (m : memory gc_status).

Lemma keep_waiting_false sig doWeakCheck r :
  keep_waiting status sig doWeakCheck r = false ↔
  satisfied status sig doWeakCheck r.
Proof.
  unfold keep_waiting, satisfied, marked_dead.
  destruct doWeakCheck; repeat case_bool_decide; simpl;
    intuition congruence.
Qed.

Lemma keep_waiting_true sig doWeakCheck r :
  keep_waiting status sig doWeakCheck r = true ↔
  live r ≠ Dead ∧
  (status (status_idx r) ≠ sig ∨
   (doWeakCheck = true ∧ weak_signal r = DoHandshake)).
Proof.
  unfold keep_waiting, marked_dead.
  destruct doWeakCheck; repeat case_bool_decide; simpl;
    intuition congruence.
Qed.

(** C1, as the code has it.  The busy loop of [wait_handshake] leaves a
    record and goes to the next one, without yielding or polling, as soon
    as the record is marked dead, or its status equals the phase and, when
    the weak check is on, its weak-barrier state is not [DoHandshake].  A
    live record whose status differs from the phase, or that is in
    [DoHandshake] under the weak check, makes the loop yield and poll the
    termination flag once more. *)
Theorem wait_moves_on_iff_satisfied env fuel sig doWeakCheck h w r :
  deref (mem w) h = Some r →
  (satisfied status sig doWeakCheck r →
   wait_walk status env (S fuel) sig doWeakCheck h w =
     wait_walk status env fuel sig doWeakCheck (next (mem w) h) w) ∧
  (live r ≠ Dead →
   status (status_idx r) ≠ sig ∨
     (doWeakCheck = true ∧ weak_signal r = DoHandshake) →
   let w1 := log (EvRelax h) (interfere env w) in
   let w2 := log (EvPoll (request_gc_termination (mem w1))) w1 in
   wait_walk status env (S fuel) sig doWeakCheck h w =
     if decide (request_gc_termination (mem w1) ≠ 0)
     then Some (Aborted, w2)
     else wait_walk status env fuel sig doWeakCheck h w2).
Proof.
  intros Hr. split.
  - intros Hsat%keep_waiting_false. simpl. by rewrite Hr, Hsat.
  - intros Hlive Hwait.
    assert (keep_waiting status sig doWeakCheck r = true) as Hk
      by by apply keep_waiting_true.
    simpl. by rewrite Hr, Hk.
Qed.

(** A registry of satisfied records is walked to its end without a
    yield or a poll. *)
Lemma wait_walk_all_satisfied env sig doWeakCheck w :
  Forall (satisfied status sig doWeakCheck) (thread_struct_list (mem w)) →
  ∀ fuel h,
    (length (thread_struct_list (mem w)) ≤ h + fuel)%nat →
    wait_walk status env fuel sig doWeakCheck h w = Some (Finished, w).
Proof.
  intros Hall. induction fuel as [|fuel IH]; intros h Hlen; simpl.
  all: destruct (deref (mem w) h) as [r|] eqn:Hr; [|done].
  { apply lookup_lt_Some in Hr. lia. }
  assert (satisfied status sig doWeakCheck r) as Hsat.
  { eapply Forall_lookup_1; [exact Hall|exact Hr]. }
  apply keep_waiting_false in Hsat. rewrite Hsat.
  apply IH. unfold next. lia.
Qed.

(** C10.  On an empty registry [post_handshake], [wait_handshake] and
    [handshake] return at once and leave the world as it is: no record is
    written, no signal is queued, nothing is waited for, for every phase,
    weak-check setting and interference. *)
Theorem empty_registry_returns_at_once env fuel sig doWeakCheck w :
  thread_struct_list (mem w) = [] →
  post_handshake env fuel sig doWeakCheck w = Some w ∧
  wait_handshake status env fuel sig doWeakCheck w = Some (Finished, w) ∧
  handshake status env fuel sig doWeakCheck w = Some (Finished, w).
Proof.
  intros Hnil.
  assert (post_handshake env fuel sig doWeakCheck w = Some w) as Hpost.
  { unfold post_handshake, head. destruct fuel; simpl;
      unfold deref; by rewrite Hnil. }
  assert (wait_handshake status env fuel sig doWeakCheck w
          = Some (Finished, w)) as Hwait.
  { unfold wait_handshake, head. destruct fuel; simpl;
      unfold deref; by rewrite Hnil. }
  split_and!; [done..|]. unfold handshake. by rewrite Hpost.
Qed.

(** The events of a wait: polls that read a clear flag, except that a
    poll reading a set flag, if any, is the last thing the call did. *)
Lemma wait_walk_trace env sig doWeakCheck fuel : ∀ h w ex w',
  wait_walk status env fuel sig doWeakCheck h w = Some (ex, w') →
  ∃ new,
    trace w' = new ++ trace w ∧
    match ex with
    | Finished => saw_no_termination new
    | Aborted =>
        ∃ flag k rest,
          new = EvPoll flag :: EvRelax k :: rest ∧ flag ≠ 0 ∧
          saw_no_termination rest
    end.
Proof.
  induction fuel as [|fuel IH]; intros h w ex w'; simpl.
  all: destruct (deref (mem w) h) as [r|] eqn:Hr.
  all: try (intros [= <- <-]; exists []; split; [done|];
            by intros ? ?%elem_of_nil).
  { done. }
  destruct (keep_waiting status sig doWeakCheck r).
  - destruct (decide (request_gc_termination (env (now w) (mem w)) ≠ 0))
      as [Hset|Hclear].
    + intros [= <- <-]. eexists [_; _]. split; [done|].
      eexists _, _, []. split_and!; [done..|].
      by intros ? ?%elem_of_nil.
    + apply dec_stable in Hclear.
      intros (new & Hnew & Hshape)%IH.
      exists (new ++ [EvPoll (request_gc_termination (env (now w) (mem w)));
                      EvRelax h]).
      split. { rewrite Hnew. simpl. by rewrite <- app_assoc. }
      assert (saw_no_termination
                [EvPoll (request_gc_termination (env (now w) (mem w)));
                 EvRelax h]) as Hlast.
      { intros flag [Hin|Hin]%elem_of_cons; [by simplify_eq|].
        apply elem_of_cons in Hin as [Hin|Hin]; [done|].
        by apply elem_of_nil in Hin. }
      destruct ex.
      * intros flag [Hin|Hin]%elem_of_app; [by apply Hshape|by apply Hlast].
      * destruct Hshape as (flag & k & rest & -> & Hflag & Hrest).
        eexists flag, k, (rest ++ _). split_and!; [done..|].
        intros f [Hin|Hin]%elem_of_app; [by apply Hrest|by apply Hlast].
  - apply IH.
Qed.

(** Once the flag reads as set, the walk passes the records it need not
    wait for and returns at its first poll, on the first record it would
    have had to wait for. *)
Lemma wait_walk_terminated env sig doWeakCheck w :
  request_gc_termination (env (now w) (mem w)) ≠ 0 →
  ∀ fuel h,
    (length (thread_struct_list (mem w)) ≤ h + fuel)%nat →
    (wait_walk status env fuel sig doWeakCheck h w = Some (Finished, w) ∧
     Forall (satisfied status sig doWeakCheck)
            (drop h (thread_struct_list (mem w)))) ∨
    ∃ k r,
      (h ≤ k)%nat ∧ thread_struct_list (mem w) !! k = Some r ∧
      ¬ satisfied status sig doWeakCheck r ∧
      wait_walk status env fuel sig doWeakCheck h w =
        Some (Aborted,
              World (env (now w) (mem w)) (S (now w))
                    (EvPoll (request_gc_termination (env (now w) (mem w)))
                     :: EvRelax k :: trace w)).
Proof.
  intros Hset. induction fuel as [|fuel IH]; intros h Hlen; simpl.
  all: destruct (deref (mem w) h) as [r|] eqn:Hr.
  all: try (left; split; [done|]; unfold deref in Hr;
            apply lookup_ge_None in Hr; by rewrite drop_ge).
  { apply lookup_lt_Some in Hr. lia. }
  destruct (keep_waiting status sig doWeakCheck r) eqn:Hk.
  - right. exists h, r. split_and!; [done|exact Hr| |by rewrite decide_True].
    intros Hsat%keep_waiting_false. congruence.
  - apply keep_waiting_false in Hk.
    destruct (IH (next (mem w) h)) as [[Hfin Hall]|(k & r' & Hhk & Hab)].
    + unfold next. lia.
    + left. split; [done|]. rewrite (drop_S _ r) by exact Hr.
      by constructor.
    + right. exists k, r'. split; [unfold next in Hhk; lia|done].
Qed.

(** Once the flag is raised for good at time [t], a wait in progress at
    any record returns: a record it need not wait for is passed, and on a
    record it waits for the poll after the next yield at or after [t]
    reads the flag as set. *)
Lemma wait_walk_raised env sig doWeakCheck t :
  (∀ t' m, (t ≤ t')%nat → request_gc_termination (env t' m) ≠ 0) →
  ∀ d w h, (t + 1 - now w ≤ d)%nat →
    ∃ fuel0, ∀ fuel, (fuel0 ≤ fuel)%nat →
      ∃ ex w',
        wait_walk status env fuel sig doWeakCheck h w = Some (ex, w') ∧
        (now w' ≤ Nat.max (now w) t + 1)%nat.
Proof.
  intros Hraised d. induction d as [d IHd] using lt_wf_ind. intros w h Hd.
  assert (∀ n h, (length (thread_struct_list (mem w)) - h ≤ n)%nat →
            ∃ fuel0, ∀ fuel, (fuel0 ≤ fuel)%nat →
              ∃ ex w',
                wait_walk status env fuel sig doWeakCheck h w
                  = Some (ex, w') ∧
                (now w' ≤ Nat.max (now w) t + 1)%nat) as Hwalk.
  { clear h. induction n as [|n IHn]; intros h Hn.
    - exists 0%nat. intros fuel _. exists Finished, w.
      split; [|lia]. destruct fuel; simpl.
      all: destruct (deref (mem w) h) as [r|] eqn:Hr; [|done].
      all: unfold deref in Hr; apply lookup_lt_Some in Hr; lia.
    - destruct (deref (mem w) h) as [r|] eqn:Hr.
      2: { exists 0%nat. intros fuel _. exists Finished, w.
           split; [|lia]. destruct fuel; simpl; by rewrite Hr. }
      destruct (keep_waiting status sig doWeakCheck r) eqn:Hkeep.
      + destruct (decide (request_gc_termination (env (now w) (mem w)) ≠ 0))
          as [Hset|Hclear].
        * exists 1%nat. intros [|fuel] Hfuel; [lia|]. simpl.
          rewrite Hr, Hkeep, decide_True by done.
          eexists _, _. split; [done|]. simpl. lia.
        * assert (now w < t)%nat as Hbefore.
          { destruct (decide (t ≤ now w)%nat) as [Hle|]; [|lia].
            destruct Hclear. by apply Hraised. }
          destruct (IHd (t + 1 - S (now w))%nat ltac:(lia)
                      (log (EvPoll (request_gc_termination
                                      (env (now w) (mem w))))
                         (log (EvRelax h) (interfere env w))) h)
            as [fuel0 Hrest]; [simpl; lia|].
          exists (S fuel0). intros [|fuel] Hfuel; [lia|]. simpl.
          rewrite Hr, Hkeep, decide_False by done.
          destruct (Hrest fuel ltac:(lia)) as (ex & w' & Hrun & Hnow).
          exists ex, w'. split; [exact Hrun|]. simpl in Hnow. lia.
      + destruct (IHn (next (mem w) h)) as [fuel0 Hrest];
          [unfold next; lia|].
        exists (S fuel0). intros [|fuel] Hfuel; [lia|]. simpl.
        rewrite Hr, Hkeep. apply Hrest. lia. }
  by apply (Hwalk (length (thread_struct_list (mem w)) - h)%nat).
Qed.

(** C2.  A poll that reads the termination flag as set is the last thing
    a wait does: every earlier poll read it as clear, and the call
    returns from that poll.  This holds wherever the walk of
    [wait_handshake] stands, at its head or in the middle of spinning on
    a record [h]: if the flag reads as set at the next poll, the call
    returns within the pass, either because every remaining record was
    one it need not wait for and nothing was polled, or by yielding once
    on the first record it would wait for, polling once and returning,
    however many records have not reached the phase.  And a flag raised
    at any time [t] while the call is in progress, and left raised, makes
    the call return, with enough fuel, by time [t + 1] (or one step after
    its start if that is later): at most one yield and one poll after the
    flag was set. *)
Theorem termination_aborts_wait env sig doWeakCheck :
  (∀ fuel h w ex w',
     wait_walk status env fuel sig doWeakCheck h w = Some (ex, w') →
     ∃ new,
       trace w' = new ++ trace w ∧
       match ex with
       | Finished => saw_no_termination new
       | Aborted =>
           ∃ flag k rest,
             new = EvPoll flag :: EvRelax k :: rest ∧ flag ≠ 0 ∧
             saw_no_termination rest
       end) ∧
  (∀ fuel h w,
     request_gc_termination (env (now w) (mem w)) ≠ 0 →
     (length (thread_struct_list (mem w)) ≤ h + fuel)%nat →
     (wait_walk status env fuel sig doWeakCheck h w = Some (Finished, w) ∧
      Forall (satisfied status sig doWeakCheck)
             (drop h (thread_struct_list (mem w)))) ∨
     ∃ k r,
       (h ≤ k)%nat ∧ thread_struct_list (mem w) !! k = Some r ∧
       ¬ satisfied status sig doWeakCheck r ∧
       wait_walk status env fuel sig doWeakCheck h w =
         Some (Aborted,
               World (env (now w) (mem w)) (S (now w))
                     (EvPoll (request_gc_termination (env (now w) (mem w)))
                      :: EvRelax k :: trace w))) ∧
  (∀ t,
     (∀ t' m, (t ≤ t')%nat → request_gc_termination (env t' m) ≠ 0) →
     ∀ h w,
       ∃ fuel0, ∀ fuel, (fuel0 ≤ fuel)%nat →
         ∃ ex w',
           wait_walk status env fuel sig doWeakCheck h w = Some (ex, w') ∧
           (now w' ≤ Nat.max (now w) t + 1)%nat) ∧
  (∀ t,
     (∀ t' m, (t ≤ t')%nat → request_gc_termination (env t' m) ≠ 0) →
     ∀ w,
       ∃ fuel0, ∀ fuel, (fuel0 ≤ fuel)%nat →
         ∃ ex w',
           wait_handshake status env fuel sig doWeakCheck w
             = Some (ex, w') ∧
           (now w' ≤ Nat.max (now w) t + 1)%nat).
Proof.
  split_and!.
  - intros fuel h w ex w'. apply wait_walk_trace.
  - intros fuel h w Hset Hlen.
    by apply (wait_walk_terminated env sig doWeakCheck w Hset fuel h).
  - intros t Hraised h w.
    by apply (wait_walk_raised env sig doWeakCheck t Hraised
                (t + 1 - now w)%nat).
  - intros t Hraised w. unfold wait_handshake.
    by apply (wait_walk_raised env sig doWeakCheck t Hraised
                (t + 1 - now w)%nat).
Qed.
End handshake_properties.

(** * Properties of a thread record *)
Section record_properties.
Import gc_handshake.
Context {gc_status : Type}.
Implicit Types (r : in_memory_thread_struct gc_status).
Implicit Types (t : tracked gc_status).

(** One step keeps the flags in step with the owner's progress through
    [mark_dead]. *)
Lemma step_flags_in_step t t' :
  step t t' → flags_in_step t → flags_in_step t'.
Proof.
  intros Hstep [Hdead Hpc].
  destruct Hstep as [r|r n st Hst|r|r p]; unfold flags_in_step; simpl in *.
  - split; [done|]. split_and!; lia.
  - destruct n as [|[|[|n]]]; simpl in Hst; simplify_eq; simpl.
    + split; [|split_and!; [lia|done|lia]].
      intros Hd. by destruct (Hdead Hd).
    + destruct Hpc as (_ & Hm & _).
      split; [|split_and!; [lia|intros _; apply Hm; lia|done]].
      intros Hd. by destruct (Hdead Hd).
    + destruct Hpc as (_ & Hm & Hs).
      assert (mark_signal_disabled r = true) by (apply Hm; lia).
      assert (sweep_signal_disabled r = true) by (apply Hs; lia).
      split; [done|]. split_and!; [lia|done..].
  - done.
  - unfold weak_signal_cas. by destruct (decide _).
Qed.

Lemma rtc_flags_in_step t t' :
  rtc step t t' → flags_in_step t → flags_in_step t'.
Proof.
  induction 1 as [|t1 t2 t3 Hstep Hrun IH]; [done|].
  intros Ht1. apply IH. by eapply step_flags_in_step.
Qed.

Lemma reachable_flags make_gc_status t :
  reachable make_gc_status t →
  live (rec t) = Dead →
  mark_signal_disabled (rec t) = true ∧
  sweep_signal_disabled (rec t) = true.
Proof.
  intros (self & stack & persist & mbitmap & Hrun).
  apply rtc_flags_in_step in Hrun as [Hdead _]; [done|].
  split; [done|exact I].
Qed.

Lemma step_monotone t t' :
  step t t' →
  (live (rec t) = Dead → live (rec t') = Dead) ∧
  (mark_signal_disabled (rec t) = true →
   mark_signal_disabled (rec t') = true) ∧
  (sweep_signal_disabled (rec t) = true →
   sweep_signal_disabled (rec t') = true).
Proof.
  intros [r|r n st Hst|r|r p]; simpl; [done| |done|].
  - destruct n as [|[|[|n]]]; simpl in Hst; by simplify_eq.
  - unfold weak_signal_cas. by destruct (decide _).
Qed.

(** C8.  A record is created live with both signal flags clear;
    in every state reachable from there by the stores of [mark_dead] in
    program order and the collector's compare-and-swap on the weak-barrier
    state, a record that reads dead has [mark_signal_disabled] and
    [sweep_signal_disabled] set; no step clears either flag or brings a
    dead record back to life; and [mark_dead] ends with all three set. *)
Theorem dead_record_has_signals_disabled
    (make_gc_status : Signum → gc_status) :
  (∀ self stack persist mbitmap,
     let r := new_thread_struct make_gc_status self stack persist mbitmap in
     live r = Live ∧ mark_signal_disabled r = false ∧
     sweep_signal_disabled r = false) ∧
  (∀ t, reachable make_gc_status t →
        live (rec t) = Dead →
        mark_signal_disabled (rec t) = true ∧
        sweep_signal_disabled (rec t) = true) ∧
  (∀ t t', step t t' →
           (live (rec t) = Dead → live (rec t') = Dead) ∧
           (mark_signal_disabled (rec t) = true →
            mark_signal_disabled (rec t') = true) ∧
           (sweep_signal_disabled (rec t) = true →
            sweep_signal_disabled (rec t') = true)) ∧
  (∀ r, live (mark_dead r) = Dead ∧
        mark_signal_disabled (mark_dead r) = true ∧
        sweep_signal_disabled (mark_dead r) = true).
Proof.
  split_and!.
  - done.
  - intros t Ht. by eapply reachable_flags.
  - apply step_monotone.
  - done.
Qed.
End record_properties.

(** * The properties at concrete inputs *)
Section examples.
Import cas_loop lf_stack gc_handshake.

(** Under the weak check a live record in [DoHandshake] is waited for,
    even with its status at the phase: with nobody else running the wait
    never gets past it. *)
Lemma wait_spins_on_DoHandshake :
  weak_signal example.parked = DoHandshake ∧
  status_idx example.parked = sigSync1 ∧
  wait_walk id quiet 1 sigSync1 true 0 example.one_parked
    ≠ wait_walk id quiet 0 sigSync1 true 1 example.one_parked ∧
  ∀ fuel, wait_handshake id quiet fuel sigSync1 true example.one_parked
          = None.
Proof.
  split_and!; [done..|].
  assert (∀ fuel n tr,
            wait_walk id quiet fuel sigSync1 true 0
              (World (Memory [example.parked] 0) n tr) = None) as Hspin.
  { induction fuel as [|fuel IH]; intros n tr; [done|]. simpl. apply IH. }
  intros fuel. apply Hspin.
Qed.

(** The same through [handshake]: a thread parked in a barrier is moved to
    [DoHandshake] by [post_handshake] and signalled; its handler brings
    the status to the phase, and still the wait does not return while the
    thread stays parked. *)
Lemma handshake_waits_for_thread_in_barrier :
  ∀ fuel, handshake id example.handlers fuel sigSync1 true
            example.one_in_barrier = None.
Proof.
  pose (r := example.acknowledge
               (weak_signal_cas InBarrier DoHandshake example.in_barrier).2).
  assert (∀ fuel n tr,
            wait_walk id example.handlers fuel sigSync1 true 0
              (World (Memory [r] 0) n tr) = None) as Hspin.
  { induction fuel as [|fuel IH]; intros n tr; [done|]. simpl. apply IH. }
  intros [|fuel]; [done|]. unfold handshake.
  assert (post_handshake example.handlers (S fuel) sigSync1 true
            example.one_in_barrier
          = Some (World (Memory [r] 0) 1
                        [EvSigqueue 3 0; EvWeakCas 0 true])) as ->
    by (destruct fuel; reflexivity).
  apply Hspin.
Qed.

Lemma wait_moves_on_iff_satisfied_witness :
  let w1 := log (EvRelax 0) (interfere quiet example.one_parked) in
  let w2 := log (EvPoll 0) w1 in
  wait_walk id quiet 3 sigSync1 true 0 example.one_parked =
    wait_walk id quiet 2 sigSync1 true 0 w2 ∧
  wait_walk id quiet 3 sigSync1 false 0 example.one_parked =
    wait_walk id quiet 2 sigSync1 false 1 example.one_parked.
Proof.
  destruct (wait_moves_on_iff_satisfied id quiet 2 sigSync1 true 0
              example.one_parked example.parked eq_refl) as [_ Hspin].
  destruct (wait_moves_on_iff_satisfied id quiet 2 sigSync1 false 0
              example.one_parked example.parked eq_refl) as [Hmove _].
  split.
  - apply Hspin; [done|]. right. done.
  - apply Hmove. right. split; [done|]. by left.
Defined.

Lemma termination_aborts_wait_witness :
  (∃ fuel0, ∀ fuel, (fuel0 ≤ fuel)%nat →
     ∃ ex w',
       wait_handshake id example.raise_at_2 fuel sigSync1 false
         example.two_busy = Some (ex, w') ∧
       (now w' ≤ Nat.max (now example.two_busy) 2 + 1)%nat) ∧
  wait_handshake id example.raise_at_2 3 sigSync1 false example.two_busy
    = Some (Aborted,
            World (Memory [example.busy; example.busy] 1) 3
                  [EvPoll 1; EvRelax 0; EvPoll 0; EvRelax 0;
                   EvPoll 0; EvRelax 0]).
Proof.
  split; [|reflexivity].
  destruct (termination_aborts_wait id example.raise_at_2 sigSync1 false)
    as (_ & _ & _ & Hraised).
  apply (Hraised 2%nat). intros t' m Ht. unfold example.raise_at_2.
  rewrite decide_True by exact Ht. simpl. discriminate.
Defined.

Lemma empty_registry_returns_at_once_witness :
  post_handshake quiet 5 sigSync1 true example.no_threads
    = Some example.no_threads ∧
  wait_handshake id quiet 5 sigSync1 true example.no_threads
    = Some (Finished, example.no_threads) ∧
  handshake id quiet 5 sigSync1 true example.no_threads
    = Some (Finished, example.no_threads).
Proof.
  apply (empty_registry_returns_at_once id quiet 5 sigSync1 true
           example.no_threads).
  reflexivity.
Defined.

Lemma dead_record_has_signals_disabled_witness :
  let t := Tracked (mark_dead example.busy) (Some 3%nat) in
  reachable id t ∧ live (rec t) = Dead ∧
  mark_signal_disabled (rec t) = true ∧
  sweep_signal_disabled (rec t) = true.
Proof.
  intros t.
  assert (reachable id t) as Hreach.
  { exists 2, 8192, 0, 0.
    eapply rtc_l; [apply step_call|].
    eapply rtc_l; [by eapply step_store with (n := 0%nat)|].
    eapply rtc_l; [by eapply step_store with (n := 1%nat)|].
    eapply rtc_l; [by eapply step_store with (n := 2%nat)|].
    apply rtc_refl. }
  split; [exact Hreach|]. split; [reflexivity|].
  destruct (dead_record_has_signals_disabled (@id Signum))
    as (_ & Hinv & _).
  apply (Hinv t Hreach). reflexivity.
Defined.

Lemma veto_on_first_observation_witness :
  ∃ r' w',
    loop quiet 0 (pure_fn (λ v, bool_decide (v < 3)))
      (pure_fn (λ v, v + 1)) (default_clrv 0) example.counter
      = Some (r', w') ∧
    once quiet (pure_fn (λ v, bool_decide (v < 3)))
      (pure_fn (λ v, v + 1)) (default_clrv 0) example.counter = (r', w') ∧
    succeeded r' = false ∧
    update_calls (cas_loop.trace w')
      = update_calls (cas_loop.trace example.counter) ∧
    cas_attempts (cas_loop.trace w')
      = cas_attempts (cas_loop.trace example.counter) ∧
    stores (cas_loop.trace w') = stores (cas_loop.trace example.counter) ∧
    atom w' = observe quiet example.counter.
Proof.
  apply (veto_on_first_observation quiet 0
           (pure_fn (λ v, bool_decide (v < 3))) (pure_fn (λ v, v + 1))
           (default_clrv 0) example.counter).
  reflexivity.
Defined.

Lemma bounded_retry_witness :
  ∃ r' w',
    try_cas_loop_max example.racing 0 2 2 (pure_fn (λ _, true))
      (pure_fn (λ v, v + 10)) example.counter = Some (r', w') ∧
    (cas_attempts (cas_loop.trace w')
       ≤ cas_attempts (cas_loop.trace example.counter) + Z.to_nat 2)%nat ∧
    (succeeded r' = false →
     stores (cas_loop.trace w')
       = stores (cas_loop.trace example.counter)) ∧
    (2 = 0 →
     succeeded r' = false ∧
     cas_attempts (cas_loop.trace w')
       = cas_attempts (cas_loop.trace example.counter) ∧
     stores (cas_loop.trace w')
       = stores (cas_loop.trace example.counter) ∧
     atom w' = observe example.racing example.counter).
Proof.
  apply (bounded_retry example.racing 0 2 2 (pure_fn (λ _, true))
           (pure_fn (λ v, v + 10)) example.counter); simpl; lia.
Defined.

Lemma change_reports_observed_witness :
  let '(r', w') := change quiet 4 9 (default_clrv 0) example.counter in
  observe quiet example.counter ≠ 4 ∧
  succeeded r' = false ∧ prior_value r' = 5 ∧ resulting_value r' = 5 ∧
  atom w' = 5 ∧
  stores (cas_loop.trace w') = stores (cas_loop.trace example.counter).
Proof.
  destruct (change quiet 4 9 (default_clrv 0) example.counter)
    as [r' w'] eqn:Hchange.
  assert (observe quiet example.counter ≠ 4) as Hne
    by (vm_compute; discriminate).
  split; [exact Hne|].
  destruct (change_reports_observed quiet 4 9 (default_clrv 0)
              example.counter r' w' Hchange) as [Hfail _].
  exact (Hfail Hne).
Defined.

Lemma increment_to_at_least_spec_witness :
  ∃ r' w',
    increment_to_at_least quiet 0 0 8 example.counter = Some (r', w') ∧
    prior_value r' = 5 ∧ 5 ≤ atom w' ∧
    (5 < 8 → succeeded r' = true ∧ atom w' = 8) ∧
    (8 ≤ 5 → succeeded r' = false ∧ atom w' = 5).
Proof.
  destruct (increment_to_at_least_spec quiet 0 0 8 example.counter)
    as [_ Hquiet].
  exact Hquiet.
Defined.

Lemma version_guards_head_witness :
  ∃ s',
    run quiet example.stale example.plain 0 example.reuse_A
      example.pushed_A = Some s' ∧
    ptr (_head s') = ptr (_head example.pushed_A) ∧
    _head s' ≠ _head example.pushed_A ∧
    ∀ desired,
      compare_exchange_strong quiet (_head example.pushed_A) desired s' =
        (false, _head s',
         cas_loop.World (_head s') (S (clock s')) (entries s')
           (EvCas (_head example.pushed_A) desired false
            :: cas_loop.trace s')).
Proof.
  destruct (run quiet example.stale example.plain 0 example.reuse_A
              example.pushed_A) as [s'|] eqn:Hrun;
    [|vm_compute in Hrun; discriminate].
  exists s'. split; [reflexivity|].
  destruct (version_guards_head (V:=Z) example.stale example.plain)
    as [_ Hguard].
  destruct (Hguard 0%nat example.reuse_A example.pushed_A s' Hrun)
    as (k & [Hupd Hver] & Hstale).
  split.
  - vm_compute in Hrun. injection Hrun as <-. reflexivity.
  - apply Hstale. vm_compute in Hrun. injection Hrun as <-.
    vm_compute in Hupd. lia.
Defined.

Lemma single_thread_lifo_witness :
  ∃ s3 s4 s5 s6 s7,
    run quiet example.stale example.plain 0
      [Allocate 1%positive 1; Push 1%positive; Allocate 2%positive 2;
       Push 2%positive; Allocate 3%positive 3; Push 3%positive]
      empty_stack = Some s3 ∧
    pop quiet example.stale 0 nullptr s3 = Some (Some 3%positive, s4) ∧
    value_of (entries s4) (Some 3%positive) = Some 3 ∧
    pop quiet example.stale 0 (Some 3%positive) s4
      = Some (Some 2%positive, s5) ∧
    value_of (entries s5) (Some 2%positive) = Some 2 ∧
    pop quiet example.stale 0 (Some 2%positive) s5
      = Some (Some 1%positive, s6) ∧
    value_of (entries s6) (Some 1%positive) = Some 1 ∧
    pop quiet example.stale 0 (Some 1%positive) s6 = Some (nullptr, s7) ∧
    _head s7 = _head s6 ∧ entries s7 = entries s6.
Proof.
  destruct (single_thread_lifo (V:=Z) example.stale example.plain 0)
    as [Hlifo _].
  apply (Hlifo 1 2 3 1%positive 2%positive 3%positive nullptr); discriminate.
Defined.
End examples.

(** * Further properties *)

(** ** The retry primitive *)
Section cas_loop_more.
Import cas_loop.
Context {T : Type} `{EqDecision T} {S : Type}.
Implicit Types (w : world T S) (r : cas_loop_return_value T).
Implicit Types (continue_fn : fn T S bool) (update_fn : fn T S T).

(** X1.  Whatever the other threads do, a retry loop that returns has
    either stored exactly one value, [update_fn] of a [prior_value] that
    [continue_fn] accepted, and the word holds it; or has stored nothing,
    [continue_fn] having refused the value last seen, which the word still
    holds. *)
Theorem retry_loop_outcome env indeterminate fuel continue_fn update_fn
    w r' w' :
  try_cas_loop env indeterminate fuel continue_fn update_fn w
    = Some (r', w') →
  (succeeded r' = true →
   (∃ s, (continue_fn (prior_value r') s).1 = true ∧
         new_value r' =
           (update_fn (prior_value r')
              (continue_fn (prior_value r') s).2).1) ∧
   resulting_value r' = new_value r' ∧
   atom w' = new_value r' ∧
   stores (trace w') = new_value r' :: stores (trace w)) ∧
  (succeeded r' = false →
   (∃ s, (continue_fn (prior_value r') s).1 = false) ∧
   resulting_value r' = prior_value r' ∧
   atom w' = prior_value r' ∧
   stores (trace w') = stores (trace w)).
Proof.
  intros Hrun%loop_settled. revert Hrun.
  unfold settled, resulting_value.
  destruct (succeeded r'); intros (Hc & Hat & Hst); split; intros [=]; done.
Qed.

(** Each pass of the loop that is not vetoed calls [update_fn] once and
    makes one atomic access. *)
Lemma try_more_accounting env continue_fn update_fn fuel : ∀ r w r' w',
  try_more env fuel continue_fn update_fn r w = Some (r', w') →
  ∃ n : nat,
    (n ≤ Datatypes.S fuel)%nat ∧
    cas_attempts (trace w') = (cas_attempts (trace w) + n)%nat ∧
    update_calls (trace w') = (update_calls (trace w) + n)%nat ∧
    clock w' = (clock w + n)%nat.
Proof.
  induction fuel as [|fuel IH]; intros r w r' w' Hrun; simpl in Hrun.
  all: destruct (continue_fn (prior_value r) (closure w)).1 eqn:Hc.
  all: first [ rewrite (try_once_attempt _ _ _ _ _ Hc) in Hrun
             | rewrite (try_once_veto _ _ _ _ _ Hc) in Hrun ].
  all: simpl in Hrun;
    try destruct (decide (observe env w = prior_value r)) as [Heq|Hne];
    simplify_eq.
  all: try (exists 0%nat; unfold cas_attempts, update_calls; simpl;
            split_and!; lia).
  all: try (exists 1%nat; unfold cas_attempts, update_calls; simpl;
            split_and!; lia).
  apply IH in Hrun as (n & Hn & Hcas & Hupd & Hclock).
  exists (Datatypes.S n). revert Hcas Hupd Hclock.
  unfold cas_attempts, update_calls; simpl. intros. split_and!; lia.
Qed.

(** X2.  A retry loop that returns has called [update_fn] exactly once
    per compare-and-swap attempt, has made one load and then no atomic
    access other than those attempts, and has made at most [fuel + 2]
    attempts. *)
Theorem retry_loop_accounting env indeterminate fuel continue_fn update_fn
    w r' w' :
  try_cas_loop env indeterminate fuel continue_fn update_fn w
    = Some (r', w') →
  ∃ n : nat,
    (n ≤ fuel + 2)%nat ∧
    cas_attempts (trace w') = (cas_attempts (trace w) + n)%nat ∧
    update_calls (trace w') = (update_calls (trace w) + n)%nat ∧
    clock w' = (clock w + 1 + n)%nat.
Proof.
  unfold try_cas_loop. rewrite loop_try_more.
  intros (n & Hn & Hcas & Hupd & Hclock)%try_more_accounting.
  exists n. revert Hcas Hupd Hclock. unfold cas_attempts, update_calls.
  simpl. intros. split_and!; lia.
Qed.

(** X3.  [cas_loop], the loop with the always-true continuation, never
    comes back empty-handed: if it returns it has succeeded and the word
    holds [update_fn] of the value it replaced; and with no other thread
    running it returns after a single attempt, for any fuel. *)
Theorem cas_loop_always_succeeds indeterminate fuel update_fn w :
  (∀ env r' w',
     cas_loop.cas_loop env indeterminate fuel update_fn w = Some (r', w') →
     succeeded r' = true ∧
     (∃ s, new_value r' = (update_fn (prior_value r') s).1) ∧
     atom w' = new_value r') ∧
  (∃ r' w',
     cas_loop.cas_loop quiet indeterminate fuel update_fn w = Some (r', w') ∧
     succeeded r' = true ∧ prior_value r' = atom w ∧
     new_value r' = (update_fn (atom w) (closure w)).1 ∧
     atom w' = new_value r' ∧
     closure w' = (update_fn (atom w) (closure w)).2 ∧
     cas_attempts (trace w') = Datatypes.S (cas_attempts (trace w))).
Proof.
  split.
  - intros env r' w' Hrun%loop_settled. revert Hrun. unfold settled.
    destruct (succeeded r').
    + intros ((s & _ & Hnew) & Hat & _). split_and!; [done|by eexists|done].
    + by intros ((s & [=]) & _).
  - unfold cas_loop.cas_loop, try_cas_loop. rewrite loop_try_more.
    simpl. rewrite try_once_attempt by done. simpl.
    rewrite decide_True by done.
    eexists _, _. split; [reflexivity|]. done.
Qed.

(** X4.  [try_cas], the single attempt: it makes at most one
    compare-and-swap.  If [continue_fn] accepts the loaded value and the
    attempt fails, then [new_value] is the proposal computed from the
    loaded value, while [prior_value], and so [resulting_value()], is the
    different value the compare-and-swap found in the word. *)
Theorem try_cas_single_attempt env indeterminate continue_fn update_fn
    w r' w' :
  try_cas env indeterminate continue_fn update_fn w = (r', w') →
  let loaded := observe env w in
  let found := env (Datatypes.S (clock w)) loaded in
  let accepted := (continue_fn loaded (closure w)).1 in
  let proposal :=
    (update_fn loaded (continue_fn loaded (closure w)).2).1 in
  (cas_attempts (trace w') ≤ Datatypes.S (cas_attempts (trace w)))%nat ∧
  (accepted = false →
   succeeded r' = false ∧ prior_value r' = loaded ∧
   cas_attempts (trace w') = cas_attempts (trace w)) ∧
  (accepted = true → found = loaded →
   succeeded r' = true ∧ new_value r' = proposal ∧ atom w' = proposal) ∧
  (accepted = true → found ≠ loaded →
   succeeded r' = false ∧ new_value r' = proposal ∧
   prior_value r' = found ∧ resulting_value r' = found ∧ atom w' = found ∧
   stores (trace w') = stores (trace w)).
Proof.
  unfold try_cas, once. rewrite first_try_try_once.
  destruct (continue_fn (observe env w) (closure w)).1 eqn:Hc.
  - rewrite try_once_attempt by done. simpl.
    unfold observe at 1 3. simpl.
    destruct (decide _) as [Heq|Hne]; intros [= <- <-];
      unfold cas_attempts; simpl; split_and!; try done; try lia.
    all: intros _ Hfound; unfold observe in *; congruence.
  - rewrite try_once_veto by done. intros [= <- <-].
    unfold cas_attempts; simpl. split_and!; try done; lia.
Qed.
(** Closures that capture nothing leave the caller's state alone. *)
Lemma try_more_pure_closure env (c : T → bool) (u : T → T) fuel :
  ∀ r w r' w',
  try_more env fuel (pure_fn c) (pure_fn u) r w = Some (r', w') →
  closure w' = closure w.
Proof.
  induction fuel as [|fuel IH]; intros r w r' w' Hrun; simpl in Hrun.
  all: destruct (c (prior_value r)) eqn:Hc.
  all: first [ rewrite try_once_attempt in Hrun by done
             | rewrite try_once_veto in Hrun by done ].
  all: simpl in Hrun;
    try destruct (decide (observe env w = prior_value r)) as [Heq|Hne];
    simplify_eq; try done.
  by apply IH in Hrun.
Qed.

End cas_loop_more.

(** ** [increment_to_at_least] and [process_onceish] *)
Section onceish_properties.
Import cas_loop onceish.
Context {A F : Type}.
Implicit Types (w : world Z F) (fn : A → F → F) (l : list A).

(** What [increment_to_at_least] gives back under any interference: a
    value that is at least the target and that the word holds. *)
Lemma increment_to_at_least_result env indeterminate fuel to w r' w' :
  increment_to_at_least env indeterminate fuel to w = Some (r', w') →
  to ≤ resulting_value r' ∧ atom w' = resulting_value r' ∧
  closure w' = closure w.
Proof.
  intros Hrun. pose proof Hrun as Hset%loop_settled.
  unfold increment_to_at_least, try_cas_loop in Hrun.
  rewrite loop_try_more in Hrun.
  apply try_more_pure_closure in Hrun. simpl in Hrun.
  revert Hset. unfold settled, resulting_value, pure_fn. simpl.
  destruct (succeeded r').
  - intros ((s & _ & ->) & -> & _). split_and!; [lia|done..].
  - intros ((s & Hge%bool_decide_eq_false) & -> & _).
    split_and!; [lia|done..].
Qed.

(** With no other thread running it succeeds at once whenever there is
    something to do. *)
Lemma increment_to_at_least_quiet indeterminate fuel to w :
  ∃ r' w',
    increment_to_at_least quiet indeterminate fuel to w = Some (r', w') ∧
    resulting_value r' = Z.max (atom w) to ∧
    atom w' = Z.max (atom w) to ∧ closure w' = closure w.
Proof.
  unfold increment_to_at_least, try_cas_loop. rewrite loop_try_more.
  simpl. destruct (bool_decide (atom w < to)) eqn:Hlt.
  - apply bool_decide_eq_true in Hlt.
    rewrite try_once_attempt by (simpl; by apply bool_decide_eq_true).
    simpl. rewrite decide_True by done.
    eexists _, _. split; [reflexivity|].
    unfold resulting_value. simpl. split_and!; [lia..|done].
  - apply bool_decide_eq_false in Hlt.
    rewrite try_once_veto by (simpl; by apply bool_decide_eq_false).
    eexists _, _. split; [reflexivity|].
    unfold resulting_value, observe, quiet. simpl. split_and!; [lia..|done].
Qed.

Lemma for_each_onceish_quiet indeterminate fuel fn l : ∀ current next w,
  atom w = next → current ≤ next →
  ∃ w',
    for_each_onceish quiet indeterminate fuel fn l current next w
      = Some (current + Z.of_nat (length l),
              Z.max next (current + Z.of_nat (length l)), w') ∧
    closure w' = apply_all fn (drop (Z.to_nat (next - current)) l)
                           (closure w) ∧
    atom w' = Z.max next (current + Z.of_nat (length l)).
Proof.
  induction l as [|arg l IH]; intros current next w Hat Hle; simpl.
  { exists w. rewrite drop_nil, Z.add_0_r, Z.max_l by lia. done. }
  destruct (decide (current = next)) as [->|Hne].
  - destruct (increment_to_at_least_quiet indeterminate fuel (next + 1)
                (call fn arg w)) as (r' & w1 & -> & Hres & Hat1 & Hcl1).
    simpl in Hres, Hat1, Hcl1. rewrite Hat in Hres, Hat1.
    destruct (IH (next + 1) (resulting_value r') w1) as (w' & -> & Hcl & Hat').
    { lia. } { lia. }
    replace (next + 1 + Z.of_nat (length l))
      with (next + Z.of_nat (Datatypes.S (length l))) in * by lia.
    rewrite Hres in *.
    replace (Z.max (Z.max next (next + 1))
                   (next + Z.of_nat (Datatypes.S (length l))))
      with (Z.max next (next + Z.of_nat (Datatypes.S (length l))))
      in * by lia.
    exists w'. split_and!; [done| |done].
    rewrite Hcl, Hcl1, Z.sub_diag.
    replace (Z.max next (next + 1) - (next + 1)) with 0 by lia. done.
  - destruct (IH (current + 1) next w) as (w' & -> & Hcl & Hat');
      [done|lia|].
    replace (current + 1 + Z.of_nat (length l))
      with (current + Z.of_nat (Datatypes.S (length l))) in * by lia.
    exists w'. split_and!; [done| |done].
    rewrite Hcl.
    replace (Z.to_nat (next - current))
      with (Datatypes.S (Z.to_nat (next - (current + 1)))) by lia.
    done.
Qed.

(** X5.  With no other thread running and a counter that starts at
    [n ≥ 0], the input-iterator [process_onceish] passes to [fn] exactly
    the elements from position [n] on, in order, and leaves the counter at
    the length of the range, or where it was if that is larger. *)
Theorem process_onceish_input_quiet indeterminate fuel fn l w :
  0 ≤ atom w →
  ∃ w',
    process_onceish_input quiet indeterminate fuel fn l w = Some w' ∧
    closure w' = apply_all fn (drop (Z.to_nat (atom w)) l) (closure w) ∧
    atom w' = Z.max (atom w) (Z.of_nat (length l)).
Proof.
  intros Hpos. unfold process_onceish_input. simpl.
  destruct (for_each_onceish_quiet indeterminate fuel fn l 0 (atom w)
              (load quiet w).2) as (w' & Hrun & Hcl & Hat); [done..|].
  unfold load, observe, quiet in Hrun. simpl in Hrun.
  unfold observe, quiet. rewrite Hrun.
  exists w'. split; [done|]. revert Hcl Hat. simpl.
  rewrite Z.sub_0_r. intros -> ->. split; [done|lia].
Qed.




Lemma for_each_onceish_safe env indeterminate fuel fn l :
  ∀ current next w c' n' w',
    atom w = next → current ≤ next →
    for_each_onceish env indeterminate fuel fn l current next w
      = Some (c', n', w') →
    atom w' = n' ∧ current + Z.of_nat (length l) ≤ n' ∧
    ∃ l',
      sublist l' (drop (Z.to_nat (next - current)) l) ∧
      closure w' = apply_all fn l' (closure w) ∧
      (next - current < Z.of_nat (length l) →
       head l' = l !! Z.to_nat (next - current)).
Proof.
  induction l as [|arg l IH]; intros current next w c' n' w' Hat Hle; simpl.
  { intros [= <- <- <-]. split_and!; [done|lia|].
    exists []. rewrite drop_nil. split_and!; [done|done|simpl; lia]. }
  destruct (decide (current = next)) as [->|Hne].
  - destruct (increment_to_at_least env indeterminate fuel (next + 1)
                (call fn arg w)) as [[r w1]|] eqn:Hinc; [|done].
    apply increment_to_at_least_result in Hinc as (Hres & Hat1 & Hcl1).
    intros Hrun. apply IH in Hrun as (Hat' & Hlen & l' & Hsub & Hcl & _);
      [|done|lia].
    split_and!; [done|lia|]. exists (arg :: l').
    rewrite Z.sub_diag. simpl. split_and!.
    + apply sublist_skip. etrans; [exact Hsub|apply sublist_drop].
    + by rewrite Hcl, Hcl1.
    + done.
  - intros Hrun. apply IH in Hrun as (Hat' & Hlen & l' & Hsub & Hcl & Hhd);
      [|done|lia].
    split_and!; [done|lia|]. exists l'.
    replace (Z.to_nat (next - current))
      with (Datatypes.S (Z.to_nat (next - (current + 1)))) by lia.
    simpl. split_and!; [done|done|]. intros Hlt. apply Hhd. lia.
Qed.

(** X7.  Whatever the other threads do to the counter, an input-iterator
    [process_onceish] that first reads a counter [n ≥ 0] and returns has
    passed to [fn] a subsequence, in order, of the elements from position
    [n] on, starting with the element at [n] if there is one; and the
    counter as it last saw it is at least the length of the range. *)
Theorem process_onceish_input_safe env indeterminate fuel fn l w w' :
  0 ≤ observe env w →
  process_onceish_input env indeterminate fuel fn l w = Some w' →
  Z.of_nat (length l) ≤ atom w' ∧
  ∃ l',
    sublist l' (drop (Z.to_nat (observe env w)) l) ∧
    closure w' = apply_all fn l' (closure w) ∧
    (observe env w < Z.of_nat (length l) →
     head l' = l !! Z.to_nat (observe env w)).
Proof.
  intros Hpos. unfold process_onceish_input. simpl.
  destruct (for_each_onceish _ _ _ _ _ _ _ _) as [[[c' n'] w1]|] eqn:Hrun;
    [|done].
  intros [= <-].
  apply for_each_onceish_safe in Hrun as (Hat & Hlen & l' & Hsub & Hcl & Hhd);
    [|done..].
  rewrite Z.sub_0_r in Hsub, Hhd. split; [lia|]. by exists l'.
Qed.



End onceish_properties.

(** ** The lock-free stack used by one thread *)
Section stack_shape_properties.
Import cas_loop lf_stack stack_shape.
Context {V : Type}.
Implicit Types (s : stack V) (m : gmap addr (entry V)) (l : list addr).
Implicit Types (p : pointer).

Lemma chain_set_next m e q p l :
  e ∉ l → chain m p l → chain (set_next e q m) p l.
Proof.
  revert p. induction l as [|a l IH]; intros p Hnotin; simpl; [done|].
  apply not_elem_of_cons in Hnotin as [Hne Hnotin].
  intros (-> & x & Hx & Hrest). split; [done|]. exists x.
  rewrite lookup_set_next, decide_False by done. split; [done|].
  by apply IH.
Qed.

Lemma chain_delete m a p l :
  a ∉ l → chain m p l → chain (delete a m) p l.
Proof.
  revert p. induction l as [|b l IH]; intros p Hnotin; simpl; [done|].
  apply not_elem_of_cons in Hnotin as [Hne Hnotin].
  intros (-> & x & Hx & Hrest). split; [done|]. exists x.
  rewrite lookup_delete_ne by done. split; [done|]. by apply IH.
Qed.

Lemma segment_chain m p l1 q l2 :
  segment m p l1 q → chain m q l2 → chain m p (l1 ++ l2).
Proof.
  revert p. induction l1 as [|a l1 IH]; intros p; simpl.
  - by intros ->.
  - intros (-> & e & He & Hseg) Hl2. split; [done|]. exists e.
    split; [done|]. by apply IH.
Qed.

(** Setting the [next] of the last entry of a linked run makes the run
    lead to the new target. *)
Lemma linked_set_next m seg e q :
  NoDup seg → linked m seg → last seg = Some e →
  segment (set_next e q m) (hd_error seg) seg q.
Proof.
  induction seg as [|a seg IH]; [done|].
  intros [Hnotin Hnd]%NoDup_cons (x & Hx & Hrest) Hlast.
  simpl. split; [done|]. destruct seg as [|a' seg].
  - simpl in Hlast. simplify_eq. exists (Entry (value x) q).
    by rewrite lookup_set_next, decide_True, Hx.
  - destruct Hrest as [Hnext Hlinked]. rewrite last_cons_cons in Hlast.
    exists x. rewrite lookup_set_next, decide_False.
    + split; [done|]. rewrite Hnext. by apply IH.
    + intros ->. apply Hnotin. by eapply last_Some_elem_of.
Qed.

(** X9.  With no other thread running, pushing an allocated entry that is
    not on the stack puts it on top of the entries already there, adds one
    to the version of the head, and changes no entry's value. *)
Theorem push_onto indeterminate fuel a s l :
  holds s l → a ∉ l → is_Some (entries s !! a) →
  ∃ s',
    push quiet indeterminate fuel a s = Some s' ∧
    holds s' (a :: l) ∧
    version (_head s') = (version (_head s) + 1)%N ∧
    (∀ b, value_of (entries s') b = value_of (entries s) b) ∧
    (∀ b, b ≠ a → entries s' !! b = entries s !! b).
Proof.
  intros [Hchain Hnd] Hnotin [e He]. eexists. split; [apply push_quiet|].
  split_and!.
  - split; [|by apply NoDup_cons]. simpl. split; [done|].
    exists (Entry (value e) (ptr (_head s))).
    rewrite lookup_set_next, decide_True, He by done. split; [done|].
    simpl. by apply chain_set_next.
  - done.
  - intros [b|]; [|done]. unfold value_of. simpl.
    rewrite lookup_set_next. destruct (decide (a = b)) as [->|]; [|done].
    by destruct (entries s !! b).
  - intros b Hb. simpl. by rewrite lookup_set_next, decide_False.
Qed.

(** X10.  With no other thread running, a pop of a stack that holds
    [a :: l] hands out [a], leaves [l] on the stack, adds one to the
    version of the head and writes to no entry. *)
Theorem pop_top indeterminate fuel ret s a l :
  holds s (a :: l) →
  ∃ s',
    pop quiet indeterminate fuel ret s = Some (Some a, s') ∧
    holds s' l ∧
    version (_head s') = (version (_head s) + 1)%N ∧
    entries s' = entries s.
Proof.
  intros [(Ha & e & He & Hchain) Hnd]. eexists.
  split; [by apply pop_quiet|]. split_and!; [|done..].
  split; [|by apply NoDup_cons in Hnd as [_ ?]].
  simpl. unfold next_of. simpl. by rewrite He.
Qed.

Lemma holds_push indeterminate fuel a s l :
  holds s l → a ∉ l → is_Some (entries s !! a) →
  ∃ s',
    push quiet indeterminate fuel a s = Some s' ∧ holds s' (a :: l) ∧
    (∀ b, is_Some (entries s !! b) → is_Some (entries s' !! b)) ∧
    (∀ b, value_of (entries s') b = value_of (entries s) b).
Proof.
  intros [Hchain Hnd] Hnotin [e He]. eexists. split; [apply push_quiet|].
  split_and!.
  - split; [|by apply NoDup_cons]. simpl. split; [done|].
    exists (Entry (value e) (ptr (_head s))).
    rewrite lookup_set_next, decide_True, He by done. split; [done|].
    simpl. by apply chain_set_next.
  - intros b [x Hx]. simpl. rewrite lookup_set_next.
    destruct (decide (a = b)); rewrite Hx; by eexists.
  - intros [b|]; [|done]. unfold value_of. simpl.
    rewrite lookup_set_next. destruct (decide (a = b)) as [->|]; [|done].
    by destruct (entries s !! b).
Qed.

Lemma holds_pop indeterminate fuel ret s a l :
  holds s (a :: l) →
  ∃ s',
    pop quiet indeterminate fuel ret s = Some (Some a, s') ∧
    holds s' l ∧ entries s' = entries s.
Proof.
  intros [(Ha & e & He & Hchain) Hnd]. eexists.
  split; [by apply pop_quiet|]. split; [|done].
  split; [|by apply NoDup_cons in Hnd as [_ ?]].
  simpl. unfold next_of. simpl. by rewrite He.
Qed.

Lemma push_all_holds indeterminate assign fuel ps : ∀ s l,
  holds s l → NoDup ps → (∀ a, a ∈ ps → a ∉ l) →
  (∀ a, a ∈ ps → is_Some (entries s !! a)) →
  ∃ s',
    run quiet indeterminate assign fuel (Push <$> ps) s = Some s' ∧
    holds s' (reverse ps ++ l) ∧
    (∀ b, value_of (entries s') b = value_of (entries s) b).
Proof.
  induction ps as [|a ps IH]; intros s l Hs Hnd Hdisj Halloc.
  { exists s. done. }
  apply NoDup_cons in Hnd as [Hnotin Hnd].
  destruct (holds_push indeterminate fuel a s l Hs)
    as (s1 & Hpush & Hs1 & Hkeep & Hval).
  { apply Hdisj. by left. } { apply Halloc. by left. }
  destruct (IH s1 (a :: l) Hs1 Hnd) as (s' & Hrun & Hs' & Hval').
  { intros b Hb [->|Hl]%elem_of_cons; [done|].
    by apply (Hdisj b); [right|]. }
  { intros b Hb. apply Hkeep, Halloc. by right. }
  exists s'. rewrite fmap_cons, run_cons. simpl. rewrite Hpush. simpl.
  split; [done|]. rewrite reverse_cons, <- app_assoc. split; [done|].
  intros b. by rewrite Hval'.
Qed.

Lemma pop_n_holds indeterminate fuel l1 : ∀ s l2,
  holds s (l1 ++ l2) →
  ∃ s',
    pop_n quiet indeterminate fuel (length l1) s = Some (Some <$> l1, s') ∧
    holds s' l2 ∧ entries s' = entries s.
Proof.
  induction l1 as [|a l1 IH]; intros s l2 Hs.
  { exists s. done. }
  destruct (holds_pop indeterminate fuel nullptr s a (l1 ++ l2) Hs)
    as (s1 & Hpop & Hs1 & He1).
  destruct (IH s1 l2 Hs1) as (s' & Hrun & Hs' & He').
  exists s'. simpl. rewrite Hpop. simpl. rewrite Hrun. simpl.
  split; [done|]. split; [done|]. by rewrite He'.
Qed.

(** X11.  Last in, first out: with no other thread running, pushing
    distinct allocated entries [ps] that are not on the stack and then
    popping as many times hands them back in the reverse order and leaves
    the stack holding what it held before, with every value untouched. *)
Theorem push_all_pop_all indeterminate assign fuel ps s l :
  holds s l → NoDup ps → (∀ a, a ∈ ps → a ∉ l) →
  (∀ a, a ∈ ps → is_Some (entries s !! a)) →
  ∃ s1 s2,
    run quiet indeterminate assign fuel (Push <$> ps) s = Some s1 ∧
    holds s1 (reverse ps ++ l) ∧
    pop_n quiet indeterminate fuel (length ps) s1
      = Some (Some <$> reverse ps, s2) ∧
    holds s2 l ∧
    (∀ b, value_of (entries s2) b = value_of (entries s) b).
Proof.
  intros Hs Hnd Hdisj Halloc.
  destruct (push_all_holds indeterminate assign fuel ps s l)
    as (s1 & Hrun & Hs1 & Hval); [done..|].
  destruct (pop_n_holds indeterminate fuel (reverse ps) s1 l Hs1)
    as (s2 & Hpops & Hs2 & He2).
  exists s1, s2. rewrite length_reverse in Hpops.
  split_and!; [done..|]. intros b. by rewrite He2.
Qed.

(** X12.  With no other thread running, [push(begin, end)] of a run of
    distinct allocated entries linked from [begin] to [end], none of them
    on the stack, puts the whole run on top in its own order with a single
    update of the head. *)
Theorem push_range_splices indeterminate fuel b e seg s l :
  holds s l → NoDup seg → (∀ a, a ∈ seg → a ∉ l) →
  linked (entries s) seg → hd_error seg = Some b → last seg = Some e →
  ∃ s',
    push_range quiet indeterminate fuel b e s = Some s' ∧
    holds s' (seg ++ l) ∧
    version (_head s') = (version (_head s) + 1)%N ∧
    updates s' = Datatypes.S (updates s) ∧
    (∀ a, value_of (entries s') a = value_of (entries s) a).
Proof.
  intros [Hchain Hnd] Hseg Hdisj Hlinked Hb He.
  unfold push_range, update, cas_loop.cas_loop, try_cas_loop.
  rewrite loop_try_more. simpl.
  rewrite try_once_attempt by done. simpl. rewrite decide_True by done.
  eexists. split; [reflexivity|]. split_and!.
  - split.
    + simpl. unfold observe, quiet. simpl.
      eapply segment_chain.
      * pose proof (linked_set_next (entries s) seg e (ptr (_head s))
                      Hseg Hlinked He) as Hsegm.
        rewrite Hb in Hsegm. exact Hsegm.
      * apply chain_set_next; [|done].
        intros Hin. eapply Hdisj; [|exact Hin]. by eapply last_Some_elem_of.
    + apply NoDup_app. split_and!; [done| |done]. intros a Ha. by apply Hdisj.
  - done.
  - done.
  - intros [a|]; [|done]. unfold value_of. simpl. unfold observe, quiet.
    simpl. rewrite lookup_set_next. destruct (decide (e = a)) as [->|]; [|done].
    by destruct (_ !! a).
Qed.

Lemma walk_from_chain fuel s : ∀ p l,
  chain (entries s) p l → walk_from fuel s p = take fuel l.
Proof.
  induction fuel as [|fuel IH]; intros p l Hchain; [done|].
  destruct l as [|a l]; simpl in *.
  - by rewrite Hchain.
  - destruct Hchain as (-> & e & He & Hrest). f_equal.
    apply IH. unfold next_, next_of. simpl. by rewrite He.
Qed.

(** X13.  A read-only walk over a stack that nobody changes meanwhile,
    from [head()] along [next()], passes the entries the stack holds, top
    first, until the stack or the walk's budget ends; [empty()] says
    whether there are any. *)
Theorem walk_passes_entries fuel s l :
  holds s l →
  walk quiet fuel s = take fuel l ∧
  (empty quiet s = true ↔ l = []).
Proof.
  intros [Hchain _]. split.
  - unfold walk, head. by apply walk_from_chain.
  - unfold empty, observe, quiet. rewrite bool_decide_eq_true.
    destruct l as [|a l]; simpl in Hchain.
    + done.
    + destruct Hchain as (Hp & _). unfold _head in Hp. rewrite Hp.
      split; intros [=].
Qed.

(** The loop of [clear()]: the local [temp] points where the head points;
    when it is not the head word itself one more pass reloads it. *)
Lemma clear_loop_holds indeterminate assign :
  (∀ t q, ptr (assign t q) = q) →
  ∀ fuel temp s l,
    holds s l → ptr temp = ptr (_head s) →
    (2 * length l ≤ fuel + (if decide (temp = _head s) then 1 else 0))%nat →
    ∃ s',
      clear_loop quiet indeterminate assign fuel temp s = Some s' ∧
      ptr (_head s') = nullptr ∧
      version (_head s') = (version (_head s) + N.of_nat (length l))%N ∧
      ∀ b, entries s' !! b = if decide (b ∈ l) then None else entries s !! b.
Proof.
  intros Hassign. induction fuel as [|fuel IH]; intros temp s l Hs Hptr Hfuel.
  all: destruct l as [|a l].
  1,3: destruct Hs as [Hchain _]; simpl in Hchain;
    rewrite Hchain in Hptr; exists s;
    (split; [by simpl; rewrite Hptr|]);
    (split; [done|]); (split; [simpl; lia|]);
    intros b; (rewrite decide_False; [done|apply not_elem_of_nil]).
  { simpl in Hfuel. destruct (decide _); lia. }
  pose proof Hs as [(Ha & e & He & Hchain) [Hnotin Hnd]%NoDup_cons].
  simpl. rewrite Hptr, Ha.
  unfold inc_and_change, try_change_value, change, compare_exchange_strong.
  unfold observe, quiet.
  destruct (decide (atom s = temp)) as [Heq|Hne]; simpl.
  - pose proof He as He'. unfold entries in He'.
    unfold next_of. simpl. rewrite ?He, ?He'. simpl.
    destruct (IH (assign temp (next e))
                (deallocate a
                   (World (inc_and_set temp (next e))
                          (Datatypes.S (clock s)) (closure s)
                          (EvCas temp (inc_and_set temp (next e)) true
                           :: trace s))) l)
      as (s' & Hrun & Hnull & Hver & Hentries).
    + split; [|done]. simpl. by apply chain_delete.
    + by rewrite Hassign.
    + simpl in Hfuel. destruct (decide _); destruct (decide _); lia.
    + exists s'. split; [exact Hrun|]. split; [done|]. split.
      * rewrite Hver. simpl. rewrite <- Heq. unfold _head. lia.
      * intros b. rewrite Hentries. simpl.
        destruct (decide (b = a)) as [->|Hb].
        -- rewrite (decide_True (P := a ∈ a :: l)) by by left.
           destruct (decide (a ∈ l)); [done|]. by rewrite lookup_delete_eq.
        -- rewrite lookup_delete_ne by done.
           destruct (decide (b ∈ l)) as [Hin|Hout].
           ++ by rewrite decide_True by by right.
           ++ rewrite decide_False; [done|].
              by intros [?|?]%elem_of_cons.
  - match goal with
    | |- ∃ s', clear_loop _ _ _ _ ?t ?w = _ ∧ _ =>
        destruct (IH t w (a :: l)) as (s' & Hrun & Hnull & Hver & Hentries)
    end.
    + done.
    + done.
    + simpl. rewrite decide_True by done.
      rewrite decide_False in Hfuel by (unfold _head; congruence).
      simpl in Hfuel. lia.
    + exists s'. split; [exact Hrun|]. done.
Qed.

(** X14.  With no other thread running, [clear()] on a stack holding [l]
    returns within [2 * length l] passes of its loop, leaves the head
    null with its version raised once per entry, and has deallocated
    exactly the entries of [l]; this needs only that assigning a plain
    pointer to the local [temp] sets its pointer part. *)
Theorem clear_empties indeterminate assign fuel s l :
  (∀ t q, ptr (assign t q) = q) →
  holds s l → (2 * length l ≤ fuel)%nat →
  ∃ s',
    clear quiet indeterminate assign fuel s = Some s' ∧
    holds s' [] ∧
    version (_head s') = (version (_head s) + N.of_nat (length l))%N ∧
    ∀ b, entries s' !! b = if decide (b ∈ l) then None else entries s !! b.
Proof.
  intros Hassign Hs Hfuel. unfold clear, contents, load.
  destruct (clear_loop_holds indeterminate assign Hassign fuel
              (observe quiet s)
              (World (observe quiet s) (Datatypes.S (clock s)) (closure s)
                     (EvLoad (observe quiet s) :: trace s)) l)
    as (s' & Hrun & Hnull & Hver & Hentries).
  - done.
  - done.
  - lia.
  - exists s'. split; [exact Hrun|]. split_and!; [|done..].
    split; [done|constructor].
Qed.
End stack_shape_properties.

(** ** The lock-free stack under interference *)
Section stack_interference.
Import cas_loop lf_stack.
Context {V : Type}.
Implicit Types (s : stack V) (m : gmap addr (entry V)).

Lemma set_next_set_next m e q q' :
  set_next e q (set_next e q' m) = set_next e q m.
Proof. unfold set_next. by rewrite alter_alter_eq. Qed.

Lemma push_try_more env e fuel :
  ∀ r (w : world versioned (gmap addr (entry V))) r' w',
    try_more env fuel (pure_fn (λ _, true)) (push_update e) r w
      = Some (r', w') →
    succeeded r' = true ∧
    new_value r' = inc_and_set (prior_value r') (Some e) ∧
    atom w' = new_value r' ∧
    closure w' = set_next e (ptr (prior_value r')) (closure w) ∧
    ∃ rest,
      trace w' = EvCas (prior_value r') (new_value r') true :: rest ∧
      stores rest = stores (trace w).
Proof.
  induction fuel as [|fuel IH]; intros r w r' w' Hrun; simpl in Hrun.
  all: rewrite try_once_attempt in Hrun by done; simpl in Hrun.
  all: destruct (decide (observe env w = prior_value r)) as [Heq|Hne];
    simplify_eq; try done.
  all: try (split_and!; [done..|]; by eexists).
  apply IH in Hrun as (Hs & Hnew & Hat & Hcl & rest & Htr & Hst).
  simpl in *. split_and!; [done..| |by exists rest].
  by rewrite Hcl, set_next_set_next.
Qed.

(** X15.  Whatever the other threads do to the head, a [push(e)] that
    returns ends with its one successful compare-and-swap: that
    compare-and-swap found the head value [old] in the word and replaced
    it by [e] with the version after that of [old], nothing was stored
    before it, and the [next] of [e] is left pointing where [old]
    pointed, whatever earlier failed attempts had linked it to; no other
    entry is written. *)
Theorem push_outcome env indeterminate fuel e s s' :
  push env indeterminate fuel e s = Some s' →
  ∃ old rest,
    trace s' = EvCas old (inc_and_set old (Some e)) true :: rest ∧
    stores rest = stores (trace s) ∧
    _head s' = inc_and_set old (Some e) ∧
    entries s' = set_next e (ptr old) (entries s) ∧
    stores (trace s') = _head s' :: stores (trace s).
Proof.
  unfold push, update, cas_loop.cas_loop, try_cas_loop.
  rewrite loop_try_more.
  intros ([r' w'] & Hrun & ->)%fmap_Some.
  apply push_try_more in Hrun as (_ & Hnew & Hat & Hcl & rest & Htr & Hst).
  exists (prior_value r'), rest. simpl in *. unfold _head, entries.
  rewrite Htr, Hat, Hnew in *. simpl. rewrite Hst. done.
Qed.

Lemma pop_try_more env fuel :
  ∀ r (w : world versioned (gmap addr (entry V) * pointer)) r' w',
    atom w = prior_value r →
    try_more env fuel pop_continue pop_update r w = Some (r', w') →
    (closure w').1 = (closure w).1 ∧
    atom w' = resulting_value r' ∧
    if succeeded r'
    then ∃ a rest,
           ptr (prior_value r') = Some a ∧ (closure w').2 = Some a ∧
           new_value r' =
             inc_and_set (prior_value r')
                         (next_of (closure w).1 (Some a)) ∧
           trace w' = EvCas (prior_value r') (new_value r') true :: rest ∧
           stores rest = stores (trace w)
    else ptr (prior_value r') = nullptr ∧ (closure w').2 = nullptr ∧
         stores (trace w') = stores (trace w).
Proof.
  induction fuel as [|fuel IH]; intros r w r' w' Hseen Hrun; simpl in Hrun.
  all: destruct (decide (ptr (prior_value r) = nullptr)) as [Hnull|Hsome].
  all: first
    [ rewrite try_once_veto in Hrun
        by (unfold pop_continue; by rewrite decide_True)
    | rewrite try_once_attempt in Hrun
        by (unfold pop_continue; by rewrite decide_False) ].
  all: unfold pop_continue in Hrun; simpl in Hrun;
    rewrite ?(decide_True (P := ptr (prior_value r) = nullptr)) in Hrun
      by done;
    rewrite ?(decide_False (P := ptr (prior_value r) = nullptr)) in Hrun
      by done;
    simpl in Hrun.
  all: try destruct (decide (observe env w = prior_value r)) as [Heq|Hne].
  all: simplify_eq; unfold resulting_value; simpl.
  all: try (split_and!; done).
  all: try (destruct (ptr (prior_value r)) as [a|] eqn:Hp; [|done];
            split_and!; [done..|]; exists a; eexists; by split_and!).
  apply IH in Hrun as (Hheap & Hat & Hrest); [|done].
  simpl in *. unfold resulting_value in Hat. done.
Qed.

(** X16.  Whatever the other threads do to the head, a [pop] that returns
    has written to no entry and has either found the head null, reporting
    null and storing nothing, or ended with its one successful
    compare-and-swap: that compare-and-swap found the head value [old] in
    the word and replaced it, nothing was stored before it, the entry
    handed out is the one [old] pointed to, and the new head is that
    entry's [next] with the version after that of [old]. *)
Theorem pop_outcome env indeterminate fuel ret s ret' s' :
  pop env indeterminate fuel ret s = Some (ret', s') →
  entries s' = entries s ∧
  ((ret' = nullptr ∧ ptr (_head s') = nullptr ∧
    stores (trace s') = stores (trace s)) ∨
   (∃ a old rest,
      trace s'
        = EvCas old (inc_and_set old (next_of (entries s) (Some a))) true
            :: rest ∧
      stores rest = stores (trace s) ∧
      ptr old = Some a ∧ ret' = Some a ∧
      _head s' = inc_and_set old (next_of (entries s) (Some a)) ∧
      stores (trace s') = _head s' :: stores (trace s))).
Proof.
  unfold pop, try_update, try_cas_loop. rewrite loop_try_more.
  destruct (try_more _ _ _ _ _ _) as [[r' w']|] eqn:Hrun; [|done].
  intros [= <- <-].
  apply pop_try_more in Hrun as (Hheap & Hat & Hrest); [|done].
  simpl in *. split; [done|]. revert Hat Hrest. unfold resulting_value.
  destruct (succeeded r').
  - intros Hat (a & rest & Ha & Hret & Hnew & Htr & Hst). right.
    exists a, (prior_value r'), rest.
    unfold _head. simpl. rewrite Htr, Hat, Hnew in *. simpl. rewrite Hst.
    by split_and!.
  - intros Hat (Hnull & Hret & Hst). left. unfold _head. simpl.
    rewrite Hat. by split_and!.
Qed.
End stack_interference.

(** ** The handshake with no other thread running *)
Section handshake_alone.
Import gc_handshake handshake_more.
Context {gc_status : Type}.
Variable status : gc_status → Signum.
Implicit Types (r : in_memory_thread_struct gc_status).
Implicit Types (pre post : list (in_memory_thread_struct gc_status)).
Implicit Types (w : world gc_status).

Lemma visited_pthread doWeakCheck r :
  pthread (visited doWeakCheck r) = pthread r.
Proof.
  unfold visited, weak_signal_cas.
  destruct (marked_dead r), doWeakCheck; try done. by destruct (decide _).
Qed.

Lemma post_walk_quiet sig doWeakCheck post : ∀ pre flag t tr fuel,
  (length post ≤ fuel)%nat →
  ∃ tr',
    post_walk quiet fuel sig doWeakCheck (length pre)
      (World (Memory (pre ++ post) flag) t tr) =
      Some (World (Memory (pre ++ (visited doWeakCheck <$> post)) flag)
                  (t + length post) tr') ∧
    signals_sent tr' = reverse (notified sig post) ++ signals_sent tr.
Proof.
  induction post as [|r post IH]; intros pre flag t tr fuel Hfuel.
  { exists tr. split; [|done]. rewrite Nat.add_0_r.
    destruct fuel; simpl; unfold deref; simpl;
      by rewrite lookup_ge_None_2 by (rewrite app_nil_r; lia). }
  destruct fuel as [|fuel]; [simpl in Hfuel; lia|].
  simpl. unfold deref. simpl. rewrite list_lookup_middle by done.
  unfold next, interfere, quiet. simpl.
  destruct (marked_dead r) eqn:Hdead.
  - destruct (IH (pre ++ [r]) flag (S t) tr fuel) as (tr' & Hrun & Hsig).
    { simpl in Hfuel. lia. }
    exists tr'. rewrite length_app, Nat.add_1_r in Hrun.
    rewrite <- !app_assoc in Hrun. simpl in Hrun.
    replace (t + S (length post))%nat with (S t + length post)%nat by lia.
    unfold visited at 1. rewrite Hdead. split; [exact Hrun|].
    rewrite Hsig. unfold notified. rewrite filter_cons_False; [done|].
    unfold marked_dead in Hdead. apply bool_decide_eq_true in Hdead.
    by intros ?.
  - assert (live r ≠ Dead) as Hlive.
    { unfold marked_dead in Hdead. by apply bool_decide_eq_false in Hdead. }
    unfold post_record, write_record, log. simpl.
    destruct doWeakCheck.
    + destruct (weak_signal_cas InBarrier DoHandshake r) as [ok r'] eqn:Hcas.
      simpl. rewrite insert_app_r_alt, Nat.sub_diag by lia. simpl.
      destruct (IH (pre ++ [r']) flag (S t)
                  (EvSigqueue (pthread r) (Signum_to_char sig)
                   :: EvWeakCas (length pre) ok :: tr) fuel)
        as (tr' & Hrun & Hsig).
      { simpl in Hfuel. lia. }
      exists tr'. rewrite length_app, Nat.add_1_r in Hrun.
      rewrite <- !app_assoc in Hrun. simpl in Hrun.
      replace (t + S (length post))%nat with (S t + length post)%nat by lia.
      unfold visited at 1. rewrite Hdead, Hcas. simpl.
      split; [exact Hrun|]. rewrite Hsig. simpl.
      unfold notified. rewrite filter_cons_True by done.
      rewrite fmap_cons, reverse_cons, <- app_assoc. done.
    + destruct (IH (pre ++ [r]) flag (S t)
                  (EvSigqueue (pthread r) (Signum_to_char sig) :: tr) fuel)
        as (tr' & Hrun & Hsig).
      { simpl in Hfuel. lia. }
      exists tr'. rewrite length_app, Nat.add_1_r in Hrun.
      rewrite <- !app_assoc in Hrun. simpl in Hrun.
      replace (t + S (length post))%nat with (S t + length post)%nat by lia.
      unfold visited at 1. rewrite Hdead.
      split; [exact Hrun|]. rewrite Hsig. simpl.
      unfold notified. rewrite filter_cons_True by done.
      rewrite fmap_cons, reverse_cons, <- app_assoc. done.
Qed.

(** X17.  With no other thread running and fuel for one pass,
    [post_handshake] returns having queued one signal carrying the phase
    to each record that is not marked dead, in registry order, and none to
    a dead one; it leaves the termination flag alone, and the records too,
    except that under the weak check it moves every live record found in
    [InBarrier] to [DoHandshake]. *)
Theorem post_handshake_signals_live fuel sig doWeakCheck w :
  (length (thread_struct_list (mem w)) ≤ fuel)%nat →
  ∃ w',
    post_handshake quiet fuel sig doWeakCheck w = Some w' ∧
    thread_struct_list (mem w')
      = visited doWeakCheck <$> thread_struct_list (mem w) ∧
    request_gc_termination (mem w') = request_gc_termination (mem w) ∧
    signals_sent (trace w')
      = reverse (notified sig (thread_struct_list (mem w)))
          ++ signals_sent (trace w) ∧
    (doWeakCheck = false → mem w' = mem w).
Proof.
  intros Hfuel. destruct w as [[l flag] t tr]. simpl in *.
  destruct (post_walk_quiet sig doWeakCheck l [] flag t tr fuel Hfuel)
    as (tr' & Hrun & Hsig).
  eexists. split; [exact Hrun|]. simpl. split_and!; [done..|].
  intros ->. f_equal. rewrite <- (list_fmap_id l) at 2.
  apply list_fmap_ext. intros i r _. unfold visited.
  by destruct (marked_dead r).
Qed.

Lemma wait_walk_stuck sig doWeakCheck : ∀ fuel h w,
  request_gc_termination (mem w) = 0 →
  (∃ k r, (h ≤ k)%nat ∧ thread_struct_list (mem w) !! k = Some r ∧
          ¬ satisfied status sig doWeakCheck r) →
  wait_walk status quiet fuel sig doWeakCheck h w = None.
Proof.
  induction fuel as [|fuel IH]; intros h w Hflag (k & r & Hk & Hr & Hunsat).
  all: simpl; destruct (deref (mem w) h) as [r0|] eqn:Hr0.
  all: try (unfold deref in Hr0; apply lookup_ge_None in Hr0;
            apply lookup_lt_Some in Hr; lia).
  { done. }
  destruct (keep_waiting status sig doWeakCheck r0) eqn:Hkeep.
  - unfold interfere, quiet. simpl. rewrite Hflag.
    rewrite decide_False by (by intros ?). apply IH; [done|].
    exists k, r. done.
  - apply keep_waiting_false in Hkeep. apply IH; [done|].
    exists k, r. split_and!; [|done..]. unfold next.
    destruct (decide (k = h)) as [->|]; [|lia].
    unfold deref in Hr0. congruence.
Qed.

(** X18.  With no other thread running and the termination flag clear,
    [wait_handshake] returns exactly when there is nobody to wait for: if
    every record is dead or has reached the phase (and, under the weak
    check, is not in [DoHandshake]) it finishes within one pass and
    changes nothing; if one record is not, it never returns, whatever the
    fuel. *)
Theorem wait_handshake_quiet sig doWeakCheck w :
  request_gc_termination (mem w) = 0 →
  (Forall (satisfied status sig doWeakCheck) (thread_struct_list (mem w)) →
   ∀ fuel, (length (thread_struct_list (mem w)) ≤ fuel)%nat →
     wait_handshake status quiet fuel sig doWeakCheck w
       = Some (Finished, w)) ∧
  ((∃ k r, thread_struct_list (mem w) !! k = Some r ∧
           ¬ satisfied status sig doWeakCheck r) →
   ∀ fuel, wait_handshake status quiet fuel sig doWeakCheck w = None).
Proof.
  intros Hflag. split.
  - intros Hall fuel Hfuel. unfold wait_handshake, head.
    by apply wait_walk_all_satisfied.
  - intros (k & r & Hr & Hunsat) fuel. unfold wait_handshake, head.
    apply wait_walk_stuck; [done|]. exists k, r. split_and!; [lia|done..].
Qed.

Lemma satisfied_visited sig r :
  satisfied status sig true (visited true r) ↔
  live r = Dead ∨ (status (status_idx r) = sig ∧ weak_signal r = Working).
Proof.
  unfold satisfied, visited, marked_dead, weak_signal_cas.
  case_bool_decide as Hdead; [tauto|].
  destruct (decide (weak_signal r = InBarrier)) as [Hw|Hw]; simpl.
  - rewrite Hw. split; [|intros [?|[_ [=]]]; tauto].
    intros [?|[_ [[=]|?]]]; tauto.
  - destruct (weak_signal r); intuition congruence.
Qed.

(** X19.  With no other thread running, the termination flag clear and
    fuel for one pass, [handshake] returns exactly when every record,
    once [post_handshake] has visited it, is one [wait_handshake] need not
    wait for, and then it has signalled every live thread once and
    otherwise changed only what [post_handshake] changes; if one record is
    still to be waited for, it never returns.  Under the weak check the
    records not waited for are the dead ones and those at the phase in
    [Working]: a live thread found in [InBarrier], or left in
    [DoHandshake], blocks the call until it acts itself. *)
Theorem handshake_quiet fuel sig doWeakCheck w :
  request_gc_termination (mem w) = 0 →
  (length (thread_struct_list (mem w)) ≤ fuel)%nat →
  (Forall (λ r, satisfied status sig doWeakCheck (visited doWeakCheck r))
          (thread_struct_list (mem w)) →
   ∃ w',
     handshake status quiet fuel sig doWeakCheck w = Some (Finished, w') ∧
     thread_struct_list (mem w')
       = visited doWeakCheck <$> thread_struct_list (mem w) ∧
     signals_sent (trace w')
       = reverse (notified sig (thread_struct_list (mem w)))
           ++ signals_sent (trace w)) ∧
  ((∃ k r, thread_struct_list (mem w) !! k = Some r ∧
           ¬ satisfied status sig doWeakCheck (visited doWeakCheck r)) →
   handshake status quiet fuel sig doWeakCheck w = None) ∧
  (∀ r, satisfied status sig true (visited true r) ↔
        live r = Dead ∨
        (status (status_idx r) = sig ∧ weak_signal r = Working)).
Proof.
  intros Hflag Hfuel. destruct w as [[l flag] t tr]. simpl in *.
  destruct (post_walk_quiet sig doWeakCheck l [] flag t tr fuel Hfuel)
    as (tr' & Hpost & Hsig).
  simpl in Hpost. unfold handshake, post_handshake, head. simpl.
  rewrite Hpost. simpl. split_and!.
  - intros Hall. eexists. split.
    { unfold wait_handshake, head. apply wait_walk_all_satisfied.
      - simpl. by apply Forall_fmap.
      - simpl. rewrite length_fmap. lia. }
    done.
  - intros (k & r & Hr & Hunsat). unfold wait_handshake, head.
    apply wait_walk_stuck; [done|].
    exists k, (visited doWeakCheck r). split_and!; [lia| |done].
    simpl. by rewrite list_lookup_fmap, Hr.
  - apply satisfied_visited.
Qed.
End handshake_alone.

(** ** Deferred signals *)
Section deferred_properties.
Import gc_handshake handshake_more.
Context {gc_status : Type}.
Variable status : gc_status → Signum.
Implicit Types (w : dworld (gc_status := gc_status)).

(** The spin yields and does nothing else; it returns on a record whose
    status is the target. *)
Lemma spin_until_done env target h : ∀ fuel w w',
  spin_until status env fuel target h w = Done w' →
  (∃ r, deref (dmem w') h = Some r ∧ status (status_idx r) = target) ∧
  ∃ n, dtrace w' = replicate n DevYield ++ dtrace w ∧
       dnow w' = (dnow w + n)%nat.
Proof.
  induction fuel as [|fuel IH]; intros w w'; simpl.
  all: destruct (deref (dmem w) h) as [r|] eqn:Hr; [|done].
  all: destruct (decide (status (status_idx r) ≠ target)) as [Hne|Heq].
  all: try done.
  all: try (intros [= <-]; apply dec_stable in Heq;
            split; [by exists r|]; exists 0%nat; split; [done|lia]).
  intros (Hdone & n & Htr & Hnow)%IH. split; [done|].
  exists (S n). simpl in *. rewrite Htr, Hnow. split; [|lia].
  by rewrite cons_middle, app_assoc, <- replicate_S_end.
Qed.

Lemma spin_until_stuck target h : ∀ fuel w r,
  deref (dmem w) h = Some r → status (status_idx r) ≠ target →
  spin_until status quiet fuel target h w = OutOfFuel.
Proof.
  induction fuel as [|fuel IH]; intros w r Hr Hne; simpl.
  all: rewrite Hr, decide_True by done.
  - done.
  - by eapply IH.
Qed.

(** X20.  [do_deferred_async_signal] queues one signal, to the thread of
    its own record and carrying [sigDeferredAsync] (3), and after that
    only yields; when it returns the record's status is [sigAsync].  It
    polls no termination flag: with nobody bringing the status to
    [sigAsync] it never returns, whether or not
    [request_gc_termination] is set. *)
Theorem do_deferred_async_signal_spins h w r :
  deref (dmem w) h = Some r →
  (∀ env fuel w',
     do_deferred_async_signal status env fuel h w = Done w' →
     (∃ r', deref (dmem w') h = Some r' ∧
            status (status_idx r') = sigAsync) ∧
     ∃ n, dtrace w' = replicate n DevYield
                        ++ DevSigqueue (pthread r) 3 :: dtrace w) ∧
  (status (status_idx r) ≠ sigAsync →
   ∀ fuel, do_deferred_async_signal status quiet fuel h w = OutOfFuel).
Proof.
  intros Hr. unfold do_deferred_async_signal. rewrite Hr. split.
  - intros env fuel w' (Hdone & n & Htr & _)%spin_until_done.
    split; [done|]. by exists n.
  - intros Hne fuel. by eapply spin_until_stuck.
Qed.

(** X21.  [do_deferred_sweep_signal] does the same with
    [sigDeferredSweep] (5) as payload and [sigSweep] as the status it
    waits for. *)
Theorem do_deferred_sweep_signal_spins h w r :
  deref (dmem w) h = Some r →
  (∀ env fuel w',
     do_deferred_sweep_signal status env fuel h w = Done w' →
     (∃ r', deref (dmem w') h = Some r' ∧
            status (status_idx r') = sigSweep) ∧
     ∃ n, dtrace w' = replicate n DevYield
                        ++ DevSigqueue (pthread r) 5 :: dtrace w) ∧
  (status (status_idx r) ≠ sigSweep →
   ∀ fuel, do_deferred_sweep_signal status quiet fuel h w = OutOfFuel).
Proof.
  intros Hr. unfold do_deferred_sweep_signal. rewrite Hr. split.
  - intros env fuel w' (Hdone & n & Htr & _)%spin_until_done.
    split; [done|]. by exists n.
  - intros Hne fuel. by eapply spin_until_stuck.
Qed.
End deferred_properties.

(** ** The offset dump *)
Section dump_offsets_properties.
Import dump_offsets.
Context {T : Type}.
Implicit Types (d : dump_offsets (T := T)) (p : T) (cs : list (call (T := T))).

Lemma buf_size_value : buf_size = 268435456%N.
Proof. reflexivity. Qed.

Lemma size_t_small k : (k ≤ buf_size)%N → size_t k = k.
Proof.
  intros Hk. unfold size_t. apply N.mod_small.
  rewrite buf_size_value in Hk. lia.
Qed.

Lemma record_at_Ok at_ p d d' :
  record_at at_ p d = Ok d' →
  ∃ k b, (at_ < buf_count)%nat ∧ i d !! at_ = Some k ∧
         buf d !! at_ = Some b ∧ (k < buf_size)%N ∧
         d' = DumpOffsets (<[at_ := (k + 1)%N]> (i d))
                          (<[at_ := <[k := p]> b]> (buf d)) (index d).
Proof.
  unfold record_at. destruct (decide (at_ < buf_count)%nat); [|done].
  destruct (i d !! at_) as [k|]; [|done].
  destruct (buf d !! at_) as [b|]; [|done].
  destruct (decide (k < buf_size)%N); [|done].
  destruct (decide (size_t (k + 1) ≤ buf_size)%N); [|done].
  intros [= <-]. exists k, b. rewrite size_t_small by lia. done.
Qed.

Lemma record_at_no_assertion at_ p d : record_at at_ p d ≠ AssertionFailed.
Proof.
  unfold record_at. destruct (decide (at_ < buf_count)%nat); [|done].
  destruct (i d !! at_) as [k|]; [|done].
  destruct (buf d !! at_) as [b|]; [|done].
  destruct (decide (k < buf_size)%N); [|done].
  rewrite size_t_small by lia. rewrite decide_True by lia. done.
Qed.

Lemma record_at_well_formed at_ p d d' :
  well_formed d → record_at at_ p d = Ok d' → well_formed d'.
Proof.
  intros (Hidx & Hi & Hb & Hall) (k & b & Hat & Hk & Hbuf & Hlt & ->)%record_at_Ok.
  split_and!; simpl; [done|by rewrite length_insert..|].
  apply Forall_insert; [done|lia].
Qed.

Lemma open_dump_file_Ok d :
  well_formed d →
  ∃ d', open_dump_file d = Ok d' ∧ well_formed d' ∧
        index d' = ((index d + 2) mod 6)%N ∧
        buf d' = buf d ∧
        i d' = <[N.to_nat (index d') := 0%N]>
                 (<[(N.to_nat (index d') + 1)%nat := 0%N]> (i d)).
Proof.
  intros (Hidx & Hi & Hb & Hall). unfold open_dump_file.
  assert (uint8_t ((index d + 2) mod N.of_nat buf_count)
          = ((index d + 2) mod 6)%N) as ->.
  { unfold uint8_t, buf_count. apply N.mod_small.
    destruct Hidx as [->|[->| ->]]; by vm_compute. }
  assert ((index d + 2) mod 6 = 0 ∨ (index d + 2) mod 6 = 2
          ∨ (index d + 2) mod 6 = 4)%N as Hidx'.
  { destruct Hidx as [->|[->| ->]]; vm_compute; tauto. }
  rewrite decide_True by (unfold buf_count; lia).
  eexists. split; [done|]. split; [|done].
  split_and!; simpl; [done|by rewrite !length_insert|done|].
  rewrite buf_size_value in *. by do 2 (apply Forall_insert; [|lia]).
Qed.

Lemma step_well_formed c d :
  well_formed d →
  step c d ≠ AssertionFailed ∧ ∀ d', step c d = Ok d' → well_formed d'.
Proof.
  intros Hd. destruct c as [|p|p]; simpl.
  - destruct (open_dump_file_Ok d Hd) as (d1 & -> & Hd1 & _).
    split; [done|]. by intros d' [= <-].
  - split; [apply record_at_no_assertion|].
    intros d'. by apply record_at_well_formed.
  - split; [apply record_at_no_assertion|].
    intros d'. by apply record_at_well_formed.
Qed.

Lemma run_well_formed cs : ∀ d,
  well_formed d →
  run cs d ≠ AssertionFailed ∧ ∀ d', run cs d = Ok d' → well_formed d'.
Proof.
  induction cs as [|c cs IH]; intros d Hd; simpl.
  { split; [done|]. by intros d' [= <-]. }
  destruct (step_well_formed c d Hd) as [Hno Hok].
  destruct (step c d) as [d1| |]; [|done..].
  apply IH. by apply Hok.
Qed.

Lemma create_well_formed : well_formed (create (T := T)).
Proof.
  split_and!; simpl; [tauto|done..|].
  rewrite buf_size_value. unfold buf_count. simpl.
  repeat constructor; lia.
Qed.

(** X22.  In every use of a [dump_offsets] object after its
    constructor in which each call so far has returned, that is, has
    stayed within the buffers, [index] is one of 0, 2, 4 (so that
    [index + 1] is a buffer too) and no counter exceeds [buf_size].  On
    such an object [dump_offset] returns, with its counter one higher,
    while the buffer has room; on a full buffer, counter equal to
    [buf_size], it writes at position [buf_size], one past the end of the
    buffer: the bound is checked only after the write. *)
Theorem dump_offsets_invariant cs :
  (∀ d, run cs (create (T := T)) = Ok d →
        (index d = 0 ∨ index d = 2 ∨ index d = 4)%N ∧
        length (i d) = 6%nat ∧ length (buf d) = 6%nat ∧
        Forall (λ k, k ≤ 2 ^ 28)%N (i d)) ∧
  (∀ p d k, well_formed d →
            i d !! N.to_nat (index d) = Some k →
            ((k < buf_size)%N →
             ∃ d', dump_offset p d = Ok d' ∧
                   i d' !! N.to_nat (index d) = Some (k + 1)%N) ∧
            (k = buf_size → dump_offset p d = OutOfBounds)).
Proof.
  destruct (run_well_formed cs create create_well_formed) as [_ Hok].
  split.
  - intros d Hd. apply Hok in Hd. exact Hd.
  - intros p d k (Hidx & Hi & Hb & _) Hk. unfold dump_offset, record_at.
    rewrite Hk.
    destruct (lookup_lt_is_Some_2 (buf d) (N.to_nat (index d))) as [b Hbk];
      [unfold buf_count in *; lia|].
    rewrite Hbk, decide_True by (unfold buf_count; lia). split.
    + intros Hlt. rewrite decide_True by done.
      rewrite size_t_small by lia. rewrite decide_True by lia.
      eexists. split; [done|]. simpl.
      apply list_lookup_insert_eq. unfold buf_count in *. lia.
    + intros ->. rewrite decide_False by lia. done.
Qed.

Lemma run_bounded cs : ∀ d (n : N),
  well_formed d → Forall (λ k, k ≤ n)%N (i d) →
  (n + N.of_nat (length cs) ≤ buf_size)%N →
  ∃ d', run cs d = Ok d'.
Proof.
  induction cs as [|c cs IH]; intros d n Hd Hn Hlen; simpl.
  { by eexists. }
  rewrite length_cons in Hlen.
  assert (∃ d1, step c d = Ok d1 ∧ well_formed d1 ∧
                Forall (λ k, k ≤ n + 1)%N (i d1)) as (d1 & -> & Hd1 & Hn1).
  { destruct c as [|p|p]; simpl.
    - destruct (open_dump_file_Ok d Hd) as (d1 & -> & Hd1 & _ & _ & Hi1).
      exists d1. split_and!; [done..|]. rewrite Hi1.
      do 2 (apply Forall_insert; [|lia]).
      eapply Forall_impl; [done|]. simpl. lia.
    - assert (∃ d1, dump_offset p d = Ok d1) as [d1 Hd1].
      { unfold dump_offset, record_at. destruct Hd as (Hidx & Hi & Hb & _).
        rewrite decide_True by (unfold buf_count; lia).
        destruct (lookup_lt_is_Some_2 (i d) (N.to_nat (index d))) as [k Hk];
          [unfold buf_count in *; lia|].
        destruct (lookup_lt_is_Some_2 (buf d) (N.to_nat (index d))) as [b Hbk];
          [unfold buf_count in *; lia|].
        rewrite Hk, Hbk.
        assert (k ≤ n)%N by (by eapply (Forall_lookup_1 _ _ _ _ Hn)).
        rewrite decide_True by lia. rewrite size_t_small by lia.
        rewrite decide_True by lia. by eexists. }
      exists d1. split; [done|]. split; [by eapply record_at_well_formed|].
      apply record_at_Ok in Hd1 as (k & b & _ & Hk & _ & _ & ->). simpl.
      assert (k ≤ n)%N by (by eapply (Forall_lookup_1 _ _ _ _ Hn)).
      apply Forall_insert; [|lia].
      eapply Forall_impl; [done|]. simpl. lia.
    - assert (∃ d1, dump_offset_alloc p d = Ok d1) as [d1 Hd1].
      { unfold dump_offset_alloc, record_at.
        destruct Hd as (Hidx & Hi & Hb & _).
        rewrite decide_True by (unfold buf_count; lia).
        destruct (lookup_lt_is_Some_2 (i d) (N.to_nat (index d) + 1)) as [k Hk];
          [unfold buf_count in *; lia|].
        destruct (lookup_lt_is_Some_2 (buf d) (N.to_nat (index d) + 1))
          as [b Hbk]; [unfold buf_count in *; lia|].
        rewrite Hk, Hbk.
        assert (k ≤ n)%N by (by eapply (Forall_lookup_1 _ _ _ _ Hn)).
        rewrite decide_True by lia. rewrite size_t_small by lia.
        rewrite decide_True by lia. by eexists. }
      exists d1. split; [done|]. split; [by eapply record_at_well_formed|].
      apply record_at_Ok in Hd1 as (k & b & _ & Hk & _ & _ & ->). simpl.
      assert (k ≤ n)%N by (by eapply (Forall_lookup_1 _ _ _ _ Hn)).
      apply Forall_insert; [|lia].
      eapply Forall_impl; [done|]. simpl. lia. }
  apply (IH d1 (n + 1)%N); [done..|lia].
Qed.

(** X23.  A use of at most [buf_size] (2^28) member calls after the
    constructor stays within every buffer: each call returns. *)
Theorem dump_offsets_in_bounds cs :
  (N.of_nat (length cs) ≤ buf_size)%N →
  ∃ d, run cs (create (T := T)) = Ok d.
Proof.
  intros Hlen. apply (run_bounded cs create 0%N).
  - apply create_well_formed.
  - unfold create, buf_count. simpl. repeat constructor; lia.
  - lia.
Qed.

Lemma run_dumps cs : ∀ d d2 n m bo ba,
  well_formed d → Forall is_dump cs →
  i d !! N.to_nat (index d) = Some n →
  i d !! (N.to_nat (index d) + 1)%nat = Some m →
  buf d !! N.to_nat (index d) = Some bo →
  buf d !! (N.to_nat (index d) + 1)%nat = Some ba →
  run cs d = Ok d2 →
  index d2 = index d ∧
  i d2 !! N.to_nat (index d) = Some (n + N.of_nat (length (offsets cs)))%N ∧
  i d2 !! (N.to_nat (index d) + 1)%nat
    = Some (m + N.of_nat (length (allocs cs)))%N ∧
  (∃ bo', buf d2 !! N.to_nat (index d) = Some bo' ∧
     (∀ k p, offsets cs !! k = Some p → bo' !! (n + N.of_nat k)%N = Some p) ∧
     (∀ k, (k < n)%N → bo' !! k = bo !! k)) ∧
  (∃ ba', buf d2 !! (N.to_nat (index d) + 1)%nat = Some ba' ∧
     (∀ k p, allocs cs !! k = Some p → ba' !! (m + N.of_nat k)%N = Some p) ∧
     (∀ k, (k < m)%N → ba' !! k = ba !! k)) ∧
  (∀ j, j ≠ N.to_nat (index d) → j ≠ (N.to_nat (index d) + 1)%nat →
        buf d2 !! j = buf d !! j ∧ i d2 !! j = i d !! j).
Proof.
  induction cs as [|c cs IH]; intros d d2 n m bo ba Hd Hcs Hn Hm Hbo Hba; simpl.
  { intros [= <-]. rewrite !N.add_0_r. split_and!; [done..| | |done].
    - exists bo. done.
    - exists ba. done. }
  apply Forall_cons in Hcs as [Hc Hcs].
  destruct (step c d) as [d1| |] eqn:Hstep; [|done..].
  intros Hrun.
  assert (well_formed d1) as Hd1 by (by eapply step_well_formed).
  pose proof Hd as (_ & Hi & Hb & _).
  assert (N.to_nat (index d) + 1 < length (i d))%nat as Hlt.
  { apply lookup_lt_Some in Hm. lia. }
  destruct c as [|p|p]; [done| |]; simpl in Hstep.
  - apply record_at_Ok in Hstep as (k & b & _ & Hk & Hbk & Hklt & ->).
    rewrite Hn in Hk. rewrite Hbo in Hbk.
    injection Hk as <-. injection Hbk as <-.
    destruct (IH _ d2 (n + 1)%N m (<[n := p]> bo) ba Hd1 Hcs)
      as (Hidx & Hn2 & Hm2 & (bo' & Hbo' & Hnew & Hold) & Hba2 & Hrest);
      simpl in *.
    { apply list_lookup_insert_eq. lia. }
    { rewrite list_lookup_insert_ne by lia. done. }
    { apply list_lookup_insert_eq. lia. }
    { rewrite list_lookup_insert_ne by lia. done. }
    { done. }
    split_and!; [done| | | | |].
    + rewrite Hn2. f_equal. lia.
    + done.
    + exists bo'. split_and!; [done| |].
      * intros [|j] q; simpl.
        -- intros [= <-]. rewrite N.add_0_r, Hold by lia.
           apply lookup_insert_eq.
        -- intros Hq. apply Hnew in Hq.
           by replace (n + N.of_nat (S j))%N with (n + 1 + N.of_nat j)%N by lia.
      * intros j Hj. rewrite Hold by lia. apply lookup_insert_ne. lia.
    + done.
    + intros j Hj1 Hj2. destruct (Hrest j Hj1 Hj2) as [-> ->].
      by rewrite !list_lookup_insert_ne by done.
  - apply record_at_Ok in Hstep as (k & b & _ & Hk & Hbk & Hklt & ->).
    rewrite Hm in Hk. rewrite Hba in Hbk.
    injection Hk as <-. injection Hbk as <-.
    destruct (IH _ d2 n (m + 1)%N bo (<[m := p]> ba) Hd1 Hcs)
      as (Hidx & Hn2 & Hm2 & Hbo2 & (ba' & Hba' & Hnew & Hold) & Hrest);
      simpl in *.
    { rewrite list_lookup_insert_ne by lia. done. }
    { apply list_lookup_insert_eq. lia. }
    { rewrite list_lookup_insert_ne by lia. done. }
    { apply list_lookup_insert_eq. lia. }
    { done. }
    split_and!; [done| | | | |].
    + done.
    + rewrite Hm2. f_equal. lia.
    + done.
    + exists ba'. split_and!; [done| |].
      * intros [|j] q; simpl.
        -- intros [= <-]. rewrite N.add_0_r, Hold by lia.
           apply lookup_insert_eq.
        -- intros Hq. apply Hnew in Hq.
           by replace (m + N.of_nat (S j))%N with (m + 1 + N.of_nat j)%N by lia.
      * intros j Hj. rewrite Hold by lia. apply lookup_insert_ne. lia.
    + intros j Hj1 Hj2. destruct (Hrest j Hj1 Hj2) as [-> ->].
      by rewrite !list_lookup_insert_ne by done.
Qed.

(** X24.  What is dumped can be read back.  After [open_dump_file], any
    number of [dump_offset] and [dump_offset_alloc] calls, in any
    interleaving, that return leave in buffer [index] the offsets given
    to [dump_offset], in the order given and from position 0, and in
    buffer [index + 1] those given to [dump_offset_alloc], with the two
    counters at their numbers; [index] has moved on by 2 modulo 6, and
    the other four buffers and counters, which hold the two dumps before
    this one, are as they were. *)
Theorem dump_round_trip d cs d2 :
  well_formed d → Forall is_dump cs →
  run (OpenDumpFile :: cs) d = Ok d2 →
  index d2 = ((index d + 2) mod 6)%N ∧
  i d2 !! N.to_nat (index d2) = Some (N.of_nat (length (offsets cs))) ∧
  i d2 !! (N.to_nat (index d2) + 1)%nat
    = Some (N.of_nat (length (allocs cs))) ∧
  (∃ b, buf d2 !! N.to_nat (index d2) = Some b ∧
        ∀ k p, offsets cs !! k = Some p → b !! N.of_nat k = Some p) ∧
  (∃ b, buf d2 !! (N.to_nat (index d2) + 1)%nat = Some b ∧
        ∀ k p, allocs cs !! k = Some p → b !! N.of_nat k = Some p) ∧
  (∀ j, j ≠ N.to_nat (index d2) → j ≠ (N.to_nat (index d2) + 1)%nat →
        buf d2 !! j = buf d !! j ∧ i d2 !! j = i d !! j).
Proof.
  intros Hd Hcs. simpl.
  destruct (open_dump_file_Ok d Hd) as (d1 & -> & Hd1 & Hidx1 & Hbuf1 & Hi1).
  intros Hrun.
  pose proof Hd as (_ & Hi & Hb & _). pose proof Hd1 as (Hrange & _).
  assert (N.to_nat (index d1) + 1 < buf_count)%nat as Hlt.
  { unfold buf_count. lia. }
  destruct (lookup_lt_is_Some_2 (buf d) (N.to_nat (index d1))) as [bo Hbo];
    [lia|].
  destruct (lookup_lt_is_Some_2 (buf d) (N.to_nat (index d1) + 1)) as [ba Hba];
    [lia|].
  destruct (run_dumps cs d1 d2 0%N 0%N bo ba Hd1 Hcs)
    as (Hidx & Hn2 & Hm2 & (bo' & Hbo' & Hnew & _)
        & (ba' & Hba' & Hnewa & _) & Hrest); try done.
  { rewrite Hi1. apply list_lookup_insert_eq. rewrite length_insert. lia. }
  { rewrite Hi1. rewrite list_lookup_insert_ne by lia.
    apply list_lookup_insert_eq. lia. }
  { by rewrite Hbuf1. }
  { by rewrite Hbuf1. }
  rewrite Hidx. split_and!; [done..| | |].
  - exists bo'. split; [done|]. intros k p Hp. by apply Hnew in Hp.
  - exists ba'. split; [done|]. intros k p Hp. by apply Hnewa in Hp.
  - intros j Hj1 Hj2. destruct (Hrest j Hj1 Hj2) as [-> ->].
    rewrite Hbuf1, Hi1. by rewrite !list_lookup_insert_ne by done.
Qed.
End dump_offsets_properties.

(** ** The progress bar *)
Section progress_bar.
Import gcdemo.
Import Stdlib.Strings.String.StringSyntax.
Local Open Scope string_scope.
Local Open Scope N_scope.
Implicit Types (current max numTicks numDivisions : N).

(** With at least one step per tick and per division nothing is divided
    by zero, and the call prints by this table. *)
Lemma advanceProgressBar_table current max isDebugMode numTicks numDivisions :
  1 ≤ numTicks ≤ max → 1 ≤ numDivisions ≤ max → current < max →
  advanceProgressBar current max isDebugMode numTicks numDivisions =
    let isBeginning := bool_decide (current = 0) in
    let isEnd := negb isBeginning && bool_decide (current = max - 1) in
    let isDivision :=
      negb isEnd && bool_decide (current mod (max / numDivisions) = 0) in
    let isTick :=
      negb isDivision && bool_decide (current mod (max / numTicks) = 0) in
    Done
      (if isDebugMode then
         if isDivision then [Endl; PrintMemStats]
         else if isEnd then [Endl; Flush]
         else if isTick then [Put "-"; Flush]
         else []
       else
         if isBeginning then [Put "["; Flush]
         else if isEnd then [Put "]"; Endl; Flush]
         else if isDivision then [Put "|"; Flush]
         else if isTick then [Put "-"; Flush]
         else []).
Proof.
  intros Ht Hd Hc. unfold advanceProgressBar, udiv, urem.
  rewrite decide_False by lia.
  rewrite (decide_False (P := numTicks = 0)) by lia.
  rewrite (decide_False (P := numDivisions = 0)) by lia.
  cbn [mbind outcome_bind].
  assert (max / numTicks ≠ 0) as Htick.
  { intros H0. apply N.div_small_iff in H0; lia. }
  assert (max / numDivisions ≠ 0) as Hdiv.
  { intros H0. apply N.div_small_iff in H0; lia. }
  rewrite (decide_False (P := max / numTicks = 0)) by done.
  rewrite (decide_False (P := max / numDivisions = 0)) by done.
  cbn [mbind outcome_bind].
  destruct (negb (bool_decide (current = 0)) && bool_decide (current = max - 1));
    simpl.
  - done.
  - by destruct (bool_decide (current mod (max / numDivisions) = 0)).
Qed.

(** X25.  [advanceProgressBar] prints nothing once [current] has reached
    [max], whatever the other arguments, zero included; and it is
    defined, in both modes, for every [current] when [max] is at least
    the number of ticks and the number of divisions and these are not
    zero. *)
Theorem advanceProgressBar_defined current max isDebugMode numTicks numDivisions :
  (max ≤ current →
   advanceProgressBar current max isDebugMode numTicks numDivisions = Done []) ∧
  (1 ≤ numTicks ≤ max → 1 ≤ numDivisions ≤ max →
   ∃ out,
     advanceProgressBar current max isDebugMode numTicks numDivisions
       = Done out).
Proof.
  split.
  - intros Hc. unfold advanceProgressBar. by rewrite decide_True.
  - intros Ht Hd. destruct (decide (max ≤ current)) as [Hc|Hc].
    + exists []. unfold advanceProgressBar. by rewrite decide_True.
    + rewrite advanceProgressBar_table by lia. by eexists.
Qed.

(** X26.  A bar with fewer steps than ticks divides by zero: when
    [max < numTicks], the tick length [max / numTicks] is 0, and every
    call with [0 < current < max] that is the last one, or does not fall
    on a division, takes [current % tick] and is undefined.  With the
    defaults this is every bar of 2 to 49 steps, at its last call at the
    latest. *)
Theorem advanceProgressBar_short_bar current max isDebugMode numTicks numDivisions :
  max < numTicks → numDivisions ≠ 0 → 0 < current < max →
  current = max - 1 ∨ current mod (max / numDivisions) ≠ 0 →
  advanceProgressBar current max isDebugMode numTicks numDivisions
    = Undefined.
Proof.
  intros Ht Hd Hc Hwhere. unfold advanceProgressBar, udiv, urem.
  rewrite decide_False by lia.
  rewrite (decide_False (P := numTicks = 0)) by lia.
  rewrite (decide_False (P := numDivisions = 0)) by lia.
  cbn [mbind outcome_bind].
  rewrite (N.div_small max numTicks) by done.
  rewrite (bool_decide_eq_false_2 (current = 0)) by lia. simpl.
  case_bool_decide as Hend; simpl.
  { done. }
  destruct Hwhere as [?|Hmod]; [done|].
  destruct (decide (max / numDivisions = 0)) as [|Hdiv]; [done|]. simpl.
  by rewrite bool_decide_eq_false_2.
Qed.

Lemma advance_all_tail max numTicks numDivisions :
  1 ≤ numTicks ≤ max → 1 ≤ numDivisions ≤ max →
  ∀ count from,
    1 ≤ from → from + N.of_nat count = max - 1 →
    advance_all (S count) from max false numTicks numDivisions
      = Done
          (((N.of_nat <$> seq (N.to_nat from) count)
              ≫= (λ current,
                    if bool_decide (current mod (max / numDivisions) = 0)
                    then [Put "|"; Flush]
                    else if bool_decide (current mod (max / numTicks) = 0)
                    then [Put "-"; Flush]
                    else []))
           ++ [Put "]"; Endl; Flush]).
Proof.
  intros Ht Hd. induction count as [|count IH]; intros from Hfrom Hlen.
  - cbn [advance_all].
    rewrite advanceProgressBar_table by lia. cbn zeta.
    rewrite (bool_decide_eq_false_2 (from = 0)) by lia.
    rewrite (bool_decide_eq_true_2 (from = max - 1)) by lia. done.
  - specialize (IH (from + 1) ltac:(lia) ltac:(lia)).
    replace (N.to_nat (from + 1)) with (S (N.to_nat from)) in IH by lia.
    remember (S count) as n. cbn [advance_all]. rewrite IH.
    subst n. cbn [seq fmap list_fmap mbind list_bind].
    rewrite N2Nat.id.
    rewrite advanceProgressBar_table by lia. cbn zeta.
    rewrite (bool_decide_eq_false_2 (from = 0)) by lia.
    rewrite (bool_decide_eq_false_2 (from = max - 1)) by lia.
    cbn [negb andb mbind outcome_bind].
    destruct (bool_decide (from mod (max / numDivisions) = 0)); [done|].
    cbn [negb andb].
    by destruct (bool_decide (from mod (max / numTicks) = 0)).
Qed.

(** X27.  Called for [current = 0, 1, ..., max - 1] in turn, with at
    least two steps and no more ticks or divisions than steps, the
    normal mode draws one bar: it prints "[" first; then, for each
    [current] from 1 to [max - 2] in order, "|" if [current] is a
    multiple of the division length [max / numDivisions], otherwise "-"
    if it is a multiple of the tick length [max / numTicks], otherwise
    nothing; and "]" and a line end last.  Every one of these is followed
    by a flush. *)
Theorem progress_bar_shape max numTicks numDivisions :
  2 ≤ max → 1 ≤ numTicks ≤ max → 1 ≤ numDivisions ≤ max →
  advance_all (N.to_nat max) 0 max false numTicks numDivisions
    = Done
        ([Put "["; Flush]
         ++ ((N.of_nat <$> seq 1 (N.to_nat max - 2))
               ≫= (λ current,
                     if bool_decide (current mod (max / numDivisions) = 0)
                     then [Put "|"; Flush]
                     else if bool_decide (current mod (max / numTicks) = 0)
                     then [Put "-"; Flush]
                     else []))
         ++ [Put "]"; Endl; Flush]).
Proof.
  intros Hmax Ht Hd.
  pose proof (advance_all_tail max numTicks numDivisions Ht Hd
                (N.to_nat max - 2) 1 ltac:(lia) ltac:(lia)) as Hrest.
  replace (N.to_nat max) with (S (S (N.to_nat max - 2))) at 1 by lia.
  remember (S (N.to_nat max - 2)) as n. cbn [advance_all].
  rewrite advanceProgressBar_table by lia. cbn zeta.
  rewrite (bool_decide_eq_true_2 (0 = 0)) by done.
  cbn [negb andb mbind outcome_bind].
  replace (0 + 1) with 1 by lia. subst n. rewrite Hrest. done.
Qed.
End progress_bar.

(** * Further examples *)
Section more_cas_examples.
Import cas_loop onceish.

Lemma retry_loop_outcome_witness :
  ∃ r' w',
    try_cas_loop example.racing 0 2 (pure_fn (λ v, bool_decide (v < 8)))
      (pure_fn (λ v, v + 10)) example.counter = Some (r', w') ∧
    (succeeded r' = true →
     (∃ s, (pure_fn (S := ()) (λ v, bool_decide (v < 8)) (prior_value r') s).1
             = true ∧
           new_value r' =
             (pure_fn (λ v, v + 10) (prior_value r')
                (pure_fn (S := ()) (λ v, bool_decide (v < 8))
                   (prior_value r') s).2).1) ∧
     resulting_value r' = new_value r' ∧
     atom w' = new_value r' ∧
     stores (trace w') = new_value r' :: stores (trace example.counter)) ∧
    (succeeded r' = false →
     (∃ s, (pure_fn (S := ()) (λ v, bool_decide (v < 8)) (prior_value r') s).1
             = false) ∧
     resulting_value r' = prior_value r' ∧
     atom w' = prior_value r' ∧
     stores (trace w') = stores (trace example.counter)).
Proof.
  destruct (try_cas_loop example.racing 0 2
              (pure_fn (λ v, bool_decide (v < 8))) (pure_fn (λ v, v + 10))
              example.counter) as [[r' w']|] eqn:Hrun;
    [|vm_compute in Hrun; discriminate].
  exists r', w'. split; [reflexivity|].
  exact (retry_loop_outcome _ _ _ _ _ _ _ _ Hrun).
Defined.

Lemma retry_loop_accounting_witness :
  ∃ r' w',
    try_cas_loop example.racing 0 2 (pure_fn (λ v, bool_decide (v < 8)))
      (pure_fn (λ v, v + 10)) example.counter = Some (r', w') ∧
    ∃ n : nat,
      (n ≤ 2 + 2)%nat ∧
      cas_attempts (trace w')
        = (cas_attempts (trace example.counter) + n)%nat ∧
      update_calls (trace w')
        = (update_calls (trace example.counter) + n)%nat ∧
      clock w' = (clock example.counter + 1 + n)%nat.
Proof.
  destruct (try_cas_loop example.racing 0 2
              (pure_fn (λ v, bool_decide (v < 8))) (pure_fn (λ v, v + 10))
              example.counter) as [[r' w']|] eqn:Hrun;
    [|vm_compute in Hrun; discriminate].
  exists r', w'. split; [reflexivity|].
  exact (retry_loop_accounting _ _ _ _ _ _ _ _ Hrun).
Defined.

Lemma cas_loop_always_succeeds_witness :
  ∃ r' w',
    cas_loop.cas_loop quiet 0 0 (pure_fn (λ v, v + 10)) example.counter
      = Some (r', w') ∧
    succeeded r' = true ∧ prior_value r' = atom example.counter ∧
    new_value r'
      = (pure_fn (λ v, v + 10) (atom example.counter)
           (closure example.counter)).1 ∧
    atom w' = new_value r' ∧
    closure w'
      = (pure_fn (λ v, v + 10) (atom example.counter)
           (closure example.counter)).2 ∧
    cas_attempts (trace w')
      = Datatypes.S (cas_attempts (trace example.counter)).
Proof.
  destruct (cas_loop_always_succeeds 0 0 (pure_fn (λ v, v + 10))
              example.counter) as [_ Hquiet].
  exact Hquiet.
Defined.

Lemma try_cas_single_attempt_witness :
  let '(r', w') :=
    try_cas example.racing 0 (pure_fn (λ _, true)) (pure_fn (λ v, v + 10))
      example.counter in
  succeeded r' = false ∧ new_value r' = 16 ∧
  prior_value r' = 7 ∧ resulting_value r' = 7 ∧ atom w' = 7 ∧
  stores (trace w') = stores (trace example.counter).
Proof.
  destruct (try_cas example.racing 0 (pure_fn (λ _, true))
              (pure_fn (λ v, v + 10)) example.counter)
    as [r' w'] eqn:Hrun.
  destruct (try_cas_single_attempt _ _ _ _ _ _ _ Hrun)
    as (_ & _ & _ & Hfail).
  apply Hfail; [reflexivity|]. vm_compute. discriminate.
Defined.

Lemma process_onceish_input_quiet_witness :
  ∃ w',
    process_onceish_input quiet 0 0 sample.collect sample.items
      sample.started = Some w' ∧
    closure w'
      = apply_all sample.collect
          (drop (Z.to_nat (atom sample.started)) sample.items)
          (closure sample.started) ∧
    atom w'
      = Z.max (atom sample.started) (Z.of_nat (length sample.items)).
Proof.
  apply (process_onceish_input_quiet 0 0 sample.collect sample.items
           sample.started).
  simpl. lia.
Defined.


Lemma process_onceish_input_safe_witness :
  ∃ w',
    process_onceish_input example.racing 0 4 sample.collect sample.items
      sample.started = Some w' ∧
    Z.of_nat (length sample.items) ≤ atom w' ∧
    ∃ l',
      sublist l'
        (drop (Z.to_nat (observe example.racing sample.started))
           sample.items) ∧
      closure w' = apply_all sample.collect l' (closure sample.started) ∧
      (observe example.racing sample.started
         < Z.of_nat (length sample.items) →
       head l'
         = sample.items !! Z.to_nat (observe example.racing sample.started)).
Proof.
  destruct (process_onceish_input example.racing 0 4 sample.collect
              sample.items sample.started) as [w'|] eqn:Hrun;
    [|vm_compute in Hrun; discriminate].
  exists w'. split; [reflexivity|].
  apply (process_onceish_input_safe example.racing 0 4 sample.collect
           sample.items sample.started w'); [|exact Hrun].
  vm_compute. discriminate.
Defined.

End more_cas_examples.

Section more_stack_examples.
Import cas_loop lf_stack stack_shape.

Lemma two_on_holds : holds sample.two_on [1%positive; 2%positive].
Proof.
  split.
  - simpl. split; [reflexivity|]. eexists. split; [reflexivity|]. simpl.
    split; [reflexivity|]. eexists. split; reflexivity.
  - apply (bool_decide_unpack _). reflexivity.
Defined.

Lemma push_onto_witness :
  ∃ s',
    push quiet example.stale 0 3%positive sample.two_on = Some s' ∧
    holds s' [3%positive; 1%positive; 2%positive] ∧
    version (_head s') = (version (_head sample.two_on) + 1)%N ∧
    (∀ b, value_of (entries s') b = value_of (entries sample.two_on) b) ∧
    (∀ b, b ≠ 3%positive → entries s' !! b = entries sample.two_on !! b).
Proof.
  apply (push_onto example.stale 0 3%positive sample.two_on
           [1%positive; 2%positive]).
  - exact two_on_holds.
  - apply (bool_decide_unpack _). reflexivity.
  - eexists. reflexivity.
Defined.

Lemma pop_top_witness :
  ∃ s',
    pop quiet example.stale 0 nullptr sample.two_on
      = Some (Some 1%positive, s') ∧
    holds s' [2%positive] ∧
    version (_head s') = (version (_head sample.two_on) + 1)%N ∧
    entries s' = entries sample.two_on.
Proof.
  apply (pop_top example.stale 0 nullptr sample.two_on 1%positive
           [2%positive]).
  exact two_on_holds.
Defined.

Lemma push_all_pop_all_witness :
  ∃ s1 s2,
    run quiet example.stale example.plain 0
      (Push <$> [3%positive; 4%positive]) sample.two_on = Some s1 ∧
    holds s1 (reverse [3%positive; 4%positive] ++ [1%positive; 2%positive]) ∧
    pop_n quiet example.stale 0 (length [3%positive; 4%positive]) s1
      = Some (Some <$> reverse [3%positive; 4%positive], s2) ∧
    holds s2 [1%positive; 2%positive] ∧
    (∀ b, value_of (entries s2) b = value_of (entries sample.two_on) b).
Proof.
  apply (push_all_pop_all example.stale example.plain 0
           [3%positive; 4%positive] sample.two_on [1%positive; 2%positive]).
  - exact two_on_holds.
  - apply (bool_decide_unpack _). reflexivity.
  - apply Forall_forall, (bool_decide_unpack _). reflexivity.
  - apply Forall_forall. repeat constructor; eexists; reflexivity.
Defined.

Lemma push_range_splices_witness :
  ∃ s',
    push_range quiet example.stale 0 3%positive 4%positive sample.two_on
      = Some s' ∧
    holds s' ([3%positive; 4%positive] ++ [1%positive; 2%positive]) ∧
    version (_head s') = (version (_head sample.two_on) + 1)%N ∧
    updates s' = Datatypes.S (updates sample.two_on) ∧
    (∀ a, value_of (entries s') a = value_of (entries sample.two_on) a).
Proof.
  apply (push_range_splices example.stale 0 3%positive 4%positive
           [3%positive; 4%positive] sample.two_on [1%positive; 2%positive]).
  - exact two_on_holds.
  - apply (bool_decide_unpack _). reflexivity.
  - apply Forall_forall, (bool_decide_unpack _). reflexivity.
  - simpl. eexists. split; [reflexivity|]. split; [reflexivity|].
    eexists. split; reflexivity.
  - reflexivity.
  - reflexivity.
Defined.

Lemma walk_passes_entries_witness :
  walk quiet 5 sample.two_on = take 5 [1%positive; 2%positive] ∧
  (empty quiet sample.two_on = true ↔ [1%positive; 2%positive] = []).
Proof.
  apply (walk_passes_entries 5 sample.two_on [1%positive; 2%positive]).
  exact two_on_holds.
Defined.

Lemma clear_empties_witness :
  ∃ s',
    clear quiet example.stale example.plain 4 sample.two_on = Some s' ∧
    holds s' [] ∧
    version (_head s')
      = (version (_head sample.two_on)
         + N.of_nat (length [1%positive; 2%positive]))%N ∧
    ∀ b, entries s' !! b
         = if decide (b ∈ [1%positive; 2%positive]) then None
           else entries sample.two_on !! b.
Proof.
  apply (clear_empties example.stale example.plain 4 sample.two_on
           [1%positive; 2%positive]).
  - intros t q. reflexivity.
  - exact two_on_holds.
  - simpl. lia.
Defined.

Lemma push_outcome_witness :
  ∃ s' old rest,
    push sample.bump_once example.stale 3 3%positive sample.two_on
      = Some s' ∧
    trace s' = EvCas old (inc_and_set old (Some 3%positive)) true :: rest ∧
    stores rest = stores (trace sample.two_on) ∧
    _head s' = inc_and_set old (Some 3%positive) ∧
    entries s' = set_next 3%positive (ptr old) (entries sample.two_on) ∧
    stores (trace s') = _head s' :: stores (trace sample.two_on).
Proof.
  destruct (push sample.bump_once example.stale 3 3%positive sample.two_on)
    as [s'|] eqn:Hrun; [|vm_compute in Hrun; discriminate].
  destruct (push_outcome _ _ _ _ _ _ Hrun) as (old & rest & Hold).
  exists s', old, rest. split; [reflexivity|]. exact Hold.
Defined.

Lemma pop_outcome_witness :
  ∃ ret' s',
    pop sample.bump_once example.stale 3 nullptr sample.two_on
      = Some (ret', s') ∧
    entries s' = entries sample.two_on ∧
    ((ret' = nullptr ∧ ptr (_head s') = nullptr ∧
      stores (trace s') = stores (trace sample.two_on)) ∨
     (∃ a old rest,
        trace s'
          = EvCas old
              (inc_and_set old (next_of (entries sample.two_on) (Some a)))
              true :: rest ∧
        stores rest = stores (trace sample.two_on) ∧
        ptr old = Some a ∧ ret' = Some a ∧
        _head s'
          = inc_and_set old (next_of (entries sample.two_on) (Some a)) ∧
        stores (trace s') = _head s' :: stores (trace sample.two_on))).
Proof.
  destruct (pop sample.bump_once example.stale 3 nullptr sample.two_on)
    as [[ret' s']|] eqn:Hrun; [|vm_compute in Hrun; discriminate].
  exists ret', s'. split; [reflexivity|].
  exact (pop_outcome _ _ _ _ _ _ _ Hrun).
Defined.
End more_stack_examples.

Section more_handshake_examples.
Import gc_handshake handshake_more.

Lemma post_handshake_signals_live_witness :
  ∃ w',
    post_handshake quiet 3 sigSync1 true sample.mixed = Some w' ∧
    thread_struct_list (mem w')
      = visited true <$> thread_struct_list (mem sample.mixed) ∧
    request_gc_termination (mem w')
      = request_gc_termination (mem sample.mixed) ∧
    signals_sent (trace w')
      = reverse (notified sigSync1 (thread_struct_list (mem sample.mixed)))
          ++ signals_sent (trace sample.mixed) ∧
    (true = false → mem w' = mem sample.mixed).
Proof.
  apply (post_handshake_signals_live 3 sigSync1 true sample.mixed).
  simpl. lia.
Defined.

Lemma wait_handshake_quiet_witness :
  (∀ fuel, (1 ≤ fuel)%nat →
     wait_handshake id quiet fuel sigSync1 false example.one_parked
       = Some (Finished, example.one_parked)) ∧
  (∀ fuel,
     wait_handshake id quiet fuel sigSync1 true example.one_parked = None).
Proof.
  split.
  - destruct (wait_handshake_quiet id sigSync1 false example.one_parked
                eq_refl) as [Hall _].
    apply Hall. apply Forall_cons_2; [|apply Forall_nil_2].
    right. split; [reflexivity|]. left. reflexivity.
  - destruct (wait_handshake_quiet id sigSync1 true example.one_parked
                eq_refl) as [_ Hstuck].
    apply Hstuck. exists 0%nat, example.parked. split; [reflexivity|].
    intros [Hdead|[_ [Hweak|Hweak]]].
    + discriminate Hdead.
    + discriminate Hweak.
    + apply Hweak. reflexivity.
Defined.

Lemma handshake_quiet_witness :
  handshake id quiet 1 sigSync1 true example.one_in_barrier = None.
Proof.
  destruct (handshake_quiet id 1 sigSync1 true example.one_in_barrier
              eq_refl) as (_ & Hstuck & _).
  { simpl. lia. }
  apply Hstuck. exists 0%nat, example.in_barrier. split; [reflexivity|].
  intros [Hdead|[Hstatus _]].
  - discriminate Hdead.
  - discriminate Hstatus.
Defined.

Lemma do_deferred_async_signal_spins_witness :
  do_deferred_async_signal id quiet 7 0 sample.deferring = OutOfFuel.
Proof.
  destruct (do_deferred_async_signal_spins id 0 sample.deferring
              example.busy eq_refl) as [_ Hspin].
  apply Hspin. discriminate.
Defined.

Lemma do_deferred_sweep_signal_spins_witness :
  do_deferred_sweep_signal id quiet 7 0 sample.deferring = OutOfFuel.
Proof.
  destruct (do_deferred_sweep_signal_spins id 0 sample.deferring
              example.busy eq_refl) as [_ Hspin].
  apply Hspin. discriminate.
Defined.
End more_handshake_examples.

Section more_dump_examples.
Import dump_offsets.

Lemma dump_offsets_invariant_witness :
  (∃ d', dump_offset 7 (create (T := Z)) = Ok d' ∧
         i d' !! N.to_nat (index (create (T := Z))) = Some (0 + 1)%N) ∧
  dump_offset 7 sample.full = OutOfBounds.
Proof.
  destruct (dump_offsets_invariant (T := Z) sample.three_offsets)
    as (_ & Hdump).
  split.
  - apply (Hdump 7 create 0%N); [|reflexivity|reflexivity].
    split_and!; [left; reflexivity|reflexivity..|].
    simpl. rewrite ?buf_size_value.
    repeat (apply Forall_cons_2; [lia|]). apply Forall_nil_2.
  - apply (Hdump 7 sample.full buf_size); [|reflexivity|reflexivity].
    split_and!; [left; reflexivity|reflexivity..|].
    simpl. rewrite ?buf_size_value.
    repeat (apply Forall_cons_2; [lia|]). apply Forall_nil_2.
Defined.

Lemma dump_offsets_in_bounds_witness :
  ∃ d, run (OpenDumpFile :: sample.three_offsets) create = Ok d.
Proof.
  apply (dump_offsets_in_bounds (OpenDumpFile :: sample.three_offsets)).
  rewrite buf_size_value. simpl. lia.
Defined.

Lemma dump_round_trip_witness :
  ∃ d2,
    run (OpenDumpFile :: sample.three_offsets) create = Ok d2 ∧
    index d2 = ((index (create (T := Z)) + 2) mod 6)%N ∧
    i d2 !! N.to_nat (index d2)
      = Some (N.of_nat (length (offsets sample.three_offsets))) ∧
    i d2 !! (N.to_nat (index d2) + 1)%nat
      = Some (N.of_nat (length (allocs sample.three_offsets))) ∧
    (∃ b, buf d2 !! N.to_nat (index d2) = Some b ∧
          ∀ k p, offsets sample.three_offsets !! k = Some p →
                 b !! N.of_nat k = Some p) ∧
    (∃ b, buf d2 !! (N.to_nat (index d2) + 1)%nat = Some b ∧
          ∀ k p, allocs sample.three_offsets !! k = Some p →
                 b !! N.of_nat k = Some p) ∧
    (∀ j, j ≠ N.to_nat (index d2) → j ≠ (N.to_nat (index d2) + 1)%nat →
          buf d2 !! j = buf (create (T := Z)) !! j ∧
          i d2 !! j = i (create (T := Z)) !! j).
Proof.
  destruct (run (OpenDumpFile :: sample.three_offsets) create)
    as [d2| |] eqn:Hrun; [|vm_compute in Hrun; discriminate..].
  exists d2. split; [reflexivity|].
  apply (dump_round_trip create sample.three_offsets d2); [| |exact Hrun].
  - split_and!; [left; reflexivity|reflexivity..|].
    repeat constructor; unfold buf_size; simpl; lia.
  - repeat constructor.
Defined.
End more_dump_examples.

Section more_progress_examples.
Import gcdemo.
Import Stdlib.Strings.String.StringSyntax.
Local Open Scope string_scope.
Local Open Scope N_scope.

Lemma advanceProgressBar_defined_witness :
  advanceProgressBar 7 7 false 0 0 = Done [] ∧
  ∃ out, advanceProgressBar 3 100 true 50 4 = Done out.
Proof.
  split.
  - apply (advanceProgressBar_defined 7 7 false 0 0). lia.
  - apply (advanceProgressBar_defined 3 100 true 50 4); lia.
Defined.

Lemma advanceProgressBar_short_bar_witness :
  advanceProgressBar 9 10 false 50 4 = Undefined.
Proof.
  apply (advanceProgressBar_short_bar 9 10 false 50 4); [lia..|].
  left. reflexivity.
Defined.

Lemma progress_bar_shape_witness :
  advance_all (N.to_nat 8) 0 8 false 4 2
    = Done [Put "["; Flush; Put "-"; Flush; Put "|"; Flush; Put "-"; Flush;
            Put "]"; Endl; Flush].
Proof.
  apply (progress_bar_shape 8 4 2); lia.
Defined.
End more_progress_examples.
